(** * The tRPC dispatch core: procedure registry and HTTP request handler

    A shallow embedding of
    - the [Router] class (endpoint registration and prefix composition), and
    - [packages/server/src/http.ts] (error envelopes, query-input decoding
      and the [requestHandler] with its subscription race),
    together with the properties the specification states about them. *)

From stdpp Require Import gmap strings list fin_maps pretty.

Local Open Scope string_scope.

(** ** The procedure registry *)

Module Router.

Section WithResolver.

(** [ResolverFn]: the registered callables are opaque to the registry. *)
Context {ResolverFn : Type}.

(** [_endpoints] is a plain object used as a string-keyed table; only its
    own properties matter to [endpoint] and [compose]. *)
Record Router := mkRouter { _endpoints : gmap string ResolverFn }.

(** [new Router()]: [endpoints ?? {}]. *)
Definition new (endpoints : option (gmap string ResolverFn)) : Router :=
  mkRouter (default ∅ endpoints).

(** [endpoint(path, resolver)]: [{...this._endpoints, ...route}] with
    [route = {[path]: resolver}]; the spread of [route] overwrites an
    entry already present under [path]. *)
Definition endpoint (this : Router) (path : string) (resolver : ResolverFn) : Router :=
  let route : gmap string ResolverFn := {[ path := resolver ]} in
  new (Some (route ∪ _endpoints this)).

(** [Object.keys]: every own key once. *)
Definition Object_keys (o : gmap string ResolverFn) : list string :=
  (map_to_list o).*1.

(** The template literal [`${path}/${key}`]. *)
Definition prefixed (path key : string) : string := path +:+ "/" +:+ key.

(** The callback handed to [reduce] in [compose]. A key produced by
    [Object.keys] is always present, so the [None] arm is never taken. *)
Definition compose_step (path : string) (router : Router)
    (r : Router) (key : string) : Router :=
  match _endpoints router !! key with
  | Some resolver => endpoint r (prefixed path key) resolver
  | None => r
  end.

(** The [reduce] of [compose] over a given enumeration of the keys. *)
Definition compose_over (keys : list string) (this : Router)
    (path : string) (router : Router) : Router :=
  foldl (compose_step path router) this keys.

(** [compose(path, router)]. *)
Definition compose (this : Router) (path : string) (router : Router) : Router :=
  compose_over (Object_keys (_endpoints router)) this path router.

(** [this._endpoints[path]], the read that [handler] performs, for a path
    that is an own key of the table. *)
Definition resolve (this : Router) (path : string) : option ResolverFn :=
  _endpoints this !! path.

(** Nested composition: [A] placed under [p1], the result under [p2], ... *)
Fixpoint compose_nested (prefixes : list string) (A : Router) : Router :=
  match prefixes with
  | [] => A
  | p :: ps => compose_nested ps (compose (new None) p A)
  end.

(** The prefix a nesting amounts to: [p], put under each further prefix in
    turn. *)
Fixpoint joined (p : string) (outer : list string) : string :=
  match outer with
  | [] => p
  | q :: qs => joined (prefixed q p) qs
  end.

(** The child's table re-keyed under a prefix. *)
Definition rekey (path : string) (o : gmap string ResolverFn) : gmap string ResolverFn :=
  kmap (M2 := gmap string) (prefixed path) o.

End WithResolver.

Arguments Router : clear implicits.

End Router.

(** ** The HTTP layer: values, failures and envelopes *)

Module Http.

Local Open Scope Z_scope.

Local Set Warnings "-register-all".

(** JavaScript values as the handler sees them. Numbers are the integral
    ones (status codes, counters); objects are their own-property lists. *)
Inductive JsVal :=
| VUndefined
| VNull
| VBool (b : bool)
| VNum (n : Z)
| VStr (s : string)
| VArray (items : list JsVal)
| VObject (fields : list (string * JsVal)).

(** ToBoolean. *)
Definition truthy (v : JsVal) : bool :=
  match v with
  | VUndefined | VNull => false
  | VBool b => b
  | VNum n => negb (n =? 0)
  | VStr s => negb (String.eqb s "")
  | VArray _ | VObject _ => true
  end.

(** [SubscriptionDestroyReason]. *)
Inductive Reason := closed | timeout | stopped.

(** What reading [statusCode], [message] and [stack] off a thrown value
    gives ([undefined] for a property that is not there, and for every
    property of [null] and [undefined] under [?.]). *)
Record ErrorProps := mkProps {
  prop_statusCode : JsVal;
  prop_message : JsVal;
  prop_stack : JsVal;
}.

(** Thrown values, by the classes [http.ts] tells apart with [instanceof].
    The three [Error] subclasses of this package carry a string message and
    the stack captured at construction; [HTTPError] a numeric [statusCode]. *)
Inductive Thrown :=
| InputValidationError (message stack : string)
| RouteNotFoundError (message stack : string)
| HTTPError (statusCode : Z) (message stack : string)
| SubscriptionDestroyError (reason : Reason) (props : ErrorProps)
| OtherThrown (props : ErrorProps).

Definition props_of (err : Thrown) : ErrorProps :=
  match err with
  | InputValidationError m s | RouteNotFoundError m s =>
      mkProps VUndefined (VStr m) (VStr s)
  | HTTPError c m s => mkProps (VNum c) (VStr m) (VStr s)
  | SubscriptionDestroyError _ p | OtherThrown p => p
  end.

(** The parts of the process the module reads but does not define. *)
Record Env := mkEnv {
  (** [process.env.NODE_ENV] *)
  NODE_ENV : option string;
  (** the [stack] an [Error] constructed with the given message receives *)
  captureStack : string → string;
  (** the message of the [TypeError] raised by a property read on
      [undefined] or [null] *)
  typeErrorMessage : string;
  (** [JSON.parse]: the parsed value, or the text of its [SyntaxError] *)
  JSON_parse : string → string + JsVal;
  (** the text of a number of [2^53] or more inside a template literal:
      the shortest digits that read back as the same double, in exponent
      form from [10^21] on *)
  largeNumberText : N → string;
}.

(** A number inside a template literal, for the non-negative integral
    values: up to [2^53] every integer is a double of its own and prints as
    its decimal digits; beyond, the text is the engine's. *)
Definition Number_toString (env : Env) (n : N) : string :=
  if (n <? 2 ^ 53)%N then pretty n else largeNumberText env n.
Arguments Number_toString : simpl never.

(** [HTTPErrorResponseEnvelope]; [ok] is the literal [false]. *)
Record ErrorBody := mkErrorBody {
  message : string;
  stack : option string;
}.
Record HTTPErrorResponseEnvelope := mkErrorEnvelope {
  error_statusCode : Z;
  error : ErrorBody;
}.

(** [HTTPSuccessResponseEnvelope]; [ok] is the literal [true]. *)
Record HTTPSuccessResponseEnvelope := mkSuccessEnvelope {
  statusCode : Z;
  data : JsVal;
}.

Inductive HTTPResponseEnvelope :=
| Success (json : HTTPSuccessResponseEnvelope)
| Failure (json : HTTPErrorResponseEnvelope).

Definition ok (json : HTTPResponseEnvelope) : bool :=
  match json with Success _ => true | Failure _ => false end.

(** A value of [req.query]: [undefined | string | string[] | ParsedQs |
    ParsedQs[]]. *)
Inductive QueryValue :=
| QUndefined
| QString (s : string)
| QStringArray (items : list string)
| QParsed
| QParsedArray.

(** [!queryInput]: of the values a query can hold only [undefined] and
    the empty string are falsy. *)
Definition query_falsy (q : QueryValue) : bool :=
  match q with
  | QUndefined => true
  | QString s => String.eqb s ""
  | _ => false
  end.

Record Request := mkRequest {
  method : option string;
  query_input : QueryValue;
  body : JsVal;
}.

(** Own-property read [o[name]] on an object literal. *)
Fixpoint lookup_field (name : string) (fields : list (string * JsVal)) : JsVal :=
  match fields with
  | [] => VUndefined
  | (k, v) :: rest => if String.eqb k name then v else lookup_field name rest
  end.

Section WithEnv.

Variable env : Env.

(** [new HTTPError(statusCode, message)]. *)
Definition new_HTTPError (statusCode : Z) (message : string) : Thrown :=
  HTTPError statusCode message (captureStack env message).

(** The [httpError] helpers: [message ?? '<default>']. *)
Definition forbidden (message : option string) : Thrown :=
  new_HTTPError 403 (default "Forbidden" message).
Definition unauthorized (message : option string) : Thrown :=
  new_HTTPError 401 (default "Unauthorized" message).
Definition badRequest (message : option string) : Thrown :=
  new_HTTPError 400 (default "Bad Request" message).
Definition notFound (message : option string) : Thrown :=
  new_HTTPError 404 (default "Not found" message).

Definition production : bool :=
  bool_decide (NODE_ENV env = Some "production").

(** [getErrorResponseEnvelope(_err)]. *)
Definition getErrorResponseEnvelope (_err : Thrown) : HTTPErrorResponseEnvelope :=
  let err :=
    match _err with
    | InputValidationError m _ => badRequest (Some m)
    | RouteNotFoundError m _ => notFound (Some m)
    | _ => _err
    end in
  let statusCode : Z :=
    match prop_statusCode (props_of err) with VNum n => n | _ => 500 end in
  let message : string :=
    match prop_message (props_of err) with
    | VStr s => s
    | _ => "Internal Server Error"
    end in
  let stack : option string :=
    if negb production then
      match prop_stack (props_of err) with VStr s => Some s | _ => None end
    else None in
  {| error_statusCode := statusCode;
     error := {| message := message; stack := stack |} |}.

(** [getQueryInput(req)]. *)
Definition getQueryInput (req : Request) : Thrown + JsVal :=
  let input := VUndefined in
  let queryInput := query_input req in
  if query_falsy queryInput then inr input
  else
    match queryInput with
    | QString s =>
        match JSON_parse env s with
        | inr v => inr v
        | inl _ => inl (badRequest (Some "Expected query.input to be a JSON string"))
        end
    | _ => inl (badRequest (Some "Expected query.input to be a JSON string"))
    end.

(** [o.input] for an arbitrary value [o]. *)
Definition get_input (o : JsVal) : Thrown + JsVal :=
  match o with
  | VUndefined | VNull =>
      inl (OtherThrown
             (mkProps VUndefined (VStr (typeErrorMessage env))
                (VStr (captureStack env (typeErrorMessage env)))))
  | VObject fields =>
      inr (lookup_field "input" fields)
  | _ => inr VUndefined
  end.

End WithEnv.

(** ** The request handler *)

Module Target.
(** The [target] of [router.invoke]. *)
Inductive t := queries | mutations | subscriptions.
End Target.

Record InvokeArgs := mkInvokeArgs {
  target : Target.t;
  input : JsVal;
  ctx : JsVal;
  path : string;
}.

(** [DataTransformer]; either function may throw. *)
Record DataTransformer := mkTransformer {
  serialize : JsVal → Thrown + JsVal;
  deserialize : JsVal → Thrown + JsVal;
}.

(** [BaseOptions.subscriptions]: [{ timeout?: number }], in milliseconds. *)
Record SubscriptionOptions := mkSubscriptionOptions {
  opt_timeout : option N;
}.

(** [BaseResponse]: only [statusCode] is read; [status(..).json(..)] is a
    sink that returns normally. *)
Record Response := mkResponse {
  res_statusCode : option Z;
}.

(** The argument of [requestHandler]. The injected functions are given by
    what a call to them does: return a value or throw. *)
Record Opts := mkOpts {
  req : Request;
  res : Response;
  router_invoke : InvokeArgs → Thrown + JsVal;
  endpoint : string;
  subscriptions : option SubscriptionOptions;
  createContext : Thrown + JsVal;
  teardown : option (Thrown + unit);
  transformer : option DataTransformer;
}.

(** What can happen while the handler waits on a subscription, and after. *)
Inductive Signal :=
| HandleOutput (v : JsVal)   (* the handle produces its output *)
| HandleError (e : Thrown)   (* the handle fails on its own *)
| ClientClose                (* [res] emits ['close'] *)
| DeadlineElapsed.           (* the timer set by [setTimeout] fires *)

Record World := mkWorld {
  process : Env;
  opts : Opts;
  (** the events around the subscription, in the order they occur *)
  signals : list Signal;
  (** the properties of the [SubscriptionDestroyError] a handle rejects with *)
  destroyProps : Reason → ErrorProps;
}.

(** The observable actions of one request. *)
Inductive Effect :=
| ECreateContext
| EInvoke (args : InvokeArgs)
| EResOnceClose
| EResOffClose
| ESetTimeout (ms : N)
| EClearTimeout
| ESubDestroy (reason : Reason)
| EResStatusJson (code : Z) (json : HTTPResponseEnvelope)
| ETeardown
| EConsoleError (label : string) (err : Thrown).

(** The state of one request: the trace so far, what is registered on the
    response and the timer queue, the terminal outcome of the subscription
    handle once it has one, and the events still to come. *)
Record State := mkState {
  trace : list Effect;
  closeListener : bool;   (* [onClose] is registered on [res] *)
  timerArmed : bool;      (* the deadline timer is pending *)
  handle : option (Thrown + JsVal);
  pending : list Signal;
}.

Definition record (e : Effect) (st : State) : State :=
  mkState (trace st ++ [e]) (closeListener st) (timerArmed st) (handle st) (pending st).
Definition set_closeListener (b : bool) (st : State) : State :=
  mkState (trace st) b (timerArmed st) (handle st) (pending st).
Definition set_timerArmed (b : bool) (st : State) : State :=
  mkState (trace st) (closeListener st) b (handle st) (pending st).
Definition set_pending (l : list Signal) (st : State) : State :=
  mkState (trace st) (closeListener st) (timerArmed st) (handle st) l.

(** Modelled from the spec: the subscription handle ([./subscription] is not
    among the sources) produces at most one terminal outcome; whatever
    reaches it after that, a termination request included, is a no-op. *)
Definition settle_handle (o : Thrown + JsVal) (st : State) : State :=
  match handle st with
  | None => mkState (trace st) (closeListener st) (timerArmed st) (Some o) (pending st)
  | Some _ => st
  end.

(** An [async] body: it returns, throws, or waits for ever. *)
Inductive Outcome (A : Type) :=
| Returns (a : A) (st : State)
| Throws (e : Thrown) (st : State)
| Stuck (st : State).
Arguments Returns {A}.
Arguments Throws {A}.
Arguments Stuck {A}.

Definition final {A} (o : Outcome A) : State :=
  match o with Returns _ st | Throws _ st | Stuck st => st end.

Definition M (A : Type) : Type := State → Outcome A.

#[global] Instance M_ret : MRet M := λ A a st, Returns a st.
#[global] Instance M_bind : MBind M := λ A B k m st,
  match m st with
  | Returns a st' => k a st'
  | Throws e st' => Throws e st'
  | Stuck st' => Stuck st'
  end.

Definition throw {A} (e : Thrown) : M A := λ st, Throws e st.

(** [try { m } catch (err) { h err }]. *)
Definition try_catch {A} (m : M A) (h : Thrown → M A) : M A := λ st,
  match m st with
  | Throws e st' => h e st'
  | o => o
  end.

Definition lift {A} (r : Thrown + A) : M A :=
  match r with inl e => throw e | inr a => mret a end.

Definition log (e : Effect) : M unit := λ st, Returns tt (record e st).

Section Handler.

Variable w : World.

Local Abbreviation env := (process w).
Local Abbreviation o := (opts w).

(** Modelled from the spec: [sub.destroy(reason)] of the handle
    ([./subscription] is not among the sources) requests termination tagged
    with a reason; a handle that has no outcome yet rejects its wait with a
    [SubscriptionDestroyError] of that reason. *)
Definition sub_destroy (reason : Reason) (st : State) : State :=
  settle_handle (inl (SubscriptionDestroyError reason (destroyProps w reason)))
    (record (ESubDestroy reason) st).

(** [const onClose = () => { sub.destroy('closed') }]. *)
Definition onClose : State → State := sub_destroy closed.

(** One event of the environment. A listener added with [once] is removed
    when it runs, a timer that fires is spent; neither runs when it has
    been removed or cleared. *)
Definition deliver (s : Signal) (st : State) : State :=
  match s with
  | HandleOutput v => settle_handle (inr v) st
  | HandleError e => settle_handle (inl e) st
  | ClientClose =>
      if closeListener st then onClose (set_closeListener false st) else st
  | DeadlineElapsed =>
      if timerArmed st then sub_destroy timeout (set_timerArmed false st) else st
  end.

(** Events are delivered until the handle has its outcome; when no event
    is left, a timer that is still pending fires. *)
Fixpoint settle (events : list Signal) (st : State) : State :=
  match handle st with
  | Some _ => set_pending events st
  | None =>
      match events with
      | s :: rest => settle rest (deliver s st)
      | [] => set_pending [] (deliver DeadlineElapsed st)
      end
  end.

(** Modelled from the spec: [await sub.onceOutputAndStop()], the one wait of
    the handle ([./subscription] is not among the sources), for its terminal
    output or a termination reason. *)
Definition onceOutputAndStop : M JsVal := λ st,
  let st' := settle (pending st) st in
  match handle st' with
  | Some (inr output) => Returns output st'
  | Some (inl err) => Throws err st'
  | None => Stuck st'
  end.

Definition res_once_close : M unit := λ st,
  Returns tt (set_closeListener true (record EResOnceClose st)).
Definition res_off_close : M unit := λ st,
  Returns tt (set_closeListener false (record EResOffClose st)).
Definition setTimeout (ms : N) : M unit := λ st,
  Returns tt (set_timerArmed true (record (ESetTimeout ms) st)).
Definition clearTimeout : M unit := λ st,
  Returns tt (set_timerArmed false (record EClearTimeout st)).

(** [res.status(code).json(json)]. *)
Definition res_status_json (code : Z) (json : HTTPResponseEnvelope) : M unit :=
  log (EResStatusJson code json).

Definition invoke (args : InvokeArgs) : M JsVal :=
  log (EInvoke args);; lift (router_invoke o args).

(** The default [transformer]: both functions are the identity. *)
Definition the_transformer : DataTransformer :=
  default (mkTransformer inr inr) (transformer o).

(** [const deserializeInput = (input) => input ? transformer.deserialize(input) : input]. *)
Definition deserializeInput (input : JsVal) : Thrown + JsVal :=
  if truthy input then deserialize the_transformer input else inr input.

(** [subscriptions?.timeout ?? 9000]. *)
Definition the_timeout : N :=
  default 9000%N (subscriptions o ≫= opt_timeout).

(** [`Subscription exceeded ${timeout}ms - please reconnect.`]. *)
Definition exceeded_message (ms : N) : string :=
  "Subscription exceeded " +:+ Number_toString env ms +:+ "ms - please reconnect.".

(** The [PATCH] arm from [res.once('close', onClose)] on. *)
Definition await_subscription : M JsVal :=
  res_once_close;;
  let timeout_ms := the_timeout in
  setTimeout timeout_ms;;
  try_catch
    (output ← onceOutputAndStop;
     res_off_close;;
     mret output)
    (λ err,
       res_off_close;;
       clearTimeout;;
       match err with
       | SubscriptionDestroyError timeout _ =>
           throw (new_HTTPError env 408 (exceeded_message timeout_ms))
       | _ => throw err
       end).

(** The outer [try] block up to the value of [output]. *)
Definition dispatch : M JsVal :=
  log ECreateContext;;
  ctx ← lift (createContext o);
  let method := default "GET" (method (req o)) in
  if String.eqb method "POST" then
    raw ← lift (get_input env (body (req o)));
    input ← lift (deserializeInput raw);
    invoke (mkInvokeArgs Target.mutations input ctx (endpoint o))
  else if String.eqb method "GET" then
    raw ← lift (getQueryInput env (req o));
    input ← lift (deserializeInput raw);
    invoke (mkInvokeArgs Target.queries input ctx (endpoint o))
  else if String.eqb method "PATCH" then
    raw ← lift (get_input env (body (req o)));
    input ← lift (deserializeInput raw);
    invoke (mkInvokeArgs Target.subscriptions input ctx (endpoint o));;
    await_subscription
  else
    throw (badRequest env (Some ("Unexpected request method " +:+ method))).

(** The outer [try]/[catch]: one envelope is written either way. *)
Definition respond : M unit :=
  try_catch
    (output ← dispatch;
     data ← lift (serialize the_transformer output);
     let json := mkSuccessEnvelope (default 200 (res_statusCode (res o))) data in
     res_status_json (statusCode json) (Success json))
    (λ err,
       let json := getErrorResponseEnvelope env err in
       res_status_json (error_statusCode json) (Failure json)).

(** [try { teardown && (await teardown()) } catch (err) { console.error(..) }]. *)
Definition run_teardown : M unit :=
  try_catch
    (match teardown o with
     | Some result => log ETeardown;; lift result
     | None => mret tt
     end)
    (λ err, log (EConsoleError "Teardown failed" err)).

(** [requestHandler(opts)]. *)
Definition requestHandler : M unit :=
  respond;; run_teardown.

Definition initial : State := mkState [] false false None (signals w).

(** The events that occur after the handler has finished. *)
Definition drain (st : State) : State :=
  set_pending [] (foldl (λ st s, deliver s st) st (pending st)).

(** Everything one request does, the late events included. *)
Definition run : list Effect :=
  trace (drain (final (requestHandler initial))).

End Handler.

(** The envelopes written to the response, with their status, in order. *)
Fixpoint emitted (t : list Effect) : list (Z * HTTPResponseEnvelope) :=
  match t with
  | [] => []
  | EResStatusJson code json :: rest => (code, json) :: emitted rest
  | _ :: rest => emitted rest
  end.

(** How often the teardown hook was called. *)
Fixpoint teardowns (t : list Effect) : nat :=
  match t with
  | [] => 0%nat
  | ETeardown :: rest => S (teardowns rest)
  | _ :: rest => teardowns rest
  end.

(** The reasons the handle was asked to terminate with, in order. *)
Fixpoint destroys (t : list Effect) : list Reason :=
  match t with
  | [] => []
  | ESubDestroy r :: rest => r :: destroys rest
  | _ :: rest => destroys rest
  end.

End Http.

(** * Properties *)

(** ** The registry *)

Module RouterFacts.

Import Router.

(** A registry of named stubs, for the concrete instances below. *)
Definition stub_registry : Router nat :=
  endpoint (endpoint (new None) "list" 1%nat) "add" 2%nat.

Section WithResolver.

Context {ResolverFn : Type}.
Implicit Types (this router A P : Router ResolverFn) (resolver f g : ResolverFn).

Lemma Router_eq (r1 r2 : Router ResolverFn) : _endpoints r1 = _endpoints r2 → r1 = r2.
Proof. destruct r1, r2; simpl; congruence. Qed.

Lemma endpoint_insert this path resolver :
  _endpoints (endpoint this path resolver) = <[path := resolver]> (_endpoints this).
Proof. unfold endpoint, new; simpl. by rewrite insert_union_singleton_l. Qed.

Lemma resolve_endpoint_eq this path resolver :
  resolve (endpoint this path resolver) path = Some resolver.
Proof. unfold resolve. rewrite endpoint_insert. apply lookup_insert_eq. Qed.

Lemma resolve_endpoint_ne this path path' resolver :
  path ≠ path' →
  resolve (endpoint this path resolver) path' = resolve this path'.
Proof. intros. unfold resolve. rewrite endpoint_insert. by apply lookup_insert_ne. Qed.

Global Instance prefixed_inj path : Inj (=) (=) (prefixed path).
Proof.
  intros k1 k2 H. unfold prefixed in H.
  apply (inj (String.append path)) in H.
  by apply (inj (String.append "/")) in H.
Qed.

Lemma append_assoc (s1 s2 s3 : string) :
  s1 +:+ s2 +:+ s3 = (s1 +:+ s2) +:+ s3.
Proof.
  induction s1 as [|a s1 IH]; [done|].
  change (String a (s1 +:+ s2 +:+ s3) = String a ((s1 +:+ s2) +:+ s3)).
  by rewrite IH.
Qed.

Lemma prefixed_prefixed p2 p1 key :
  prefixed p2 (prefixed p1 key) = prefixed (prefixed p2 p1) key.
Proof. unfold prefixed. by rewrite <- !append_assoc. Qed.

Lemma elem_of_Object_keys (o : gmap string ResolverFn) key :
  key ∈ Object_keys o ↔ is_Some (o !! key).
Proof.
  unfold Object_keys. rewrite list_elem_of_fmap. split.
  - intros [[k v] [-> Hin]]. apply elem_of_map_to_list in Hin. by exists v.
  - intros [v Hv]. exists (key, v). split; [done|]. by apply elem_of_map_to_list.
Qed.

(** A key of the child that is enumerated ends up under its prefixed name. *)
Lemma compose_over_hit keys this path router key resolver :
  key ∈ keys → _endpoints router !! key = Some resolver →
  resolve (compose_over keys this path router) (prefixed path key) = Some resolver.
Proof.
  unfold compose_over. induction keys as [|k ks IH] using rev_ind; intros Hin Hk.
  - by apply elem_of_nil in Hin.
  - rewrite foldl_snoc. unfold compose_step at 1.
    destruct (decide (k = key)) as [->|Hne].
    + rewrite Hk. apply resolve_endpoint_eq.
    + assert (key ∈ ks) as Hks.
      { apply elem_of_app in Hin as [?|Hin]; [done|].
        apply list_elem_of_singleton in Hin. congruence. }
      destruct (_endpoints router !! k); [|by apply IH].
      rewrite resolve_endpoint_ne; [by apply IH|].
      intros Heq. by apply (inj (prefixed path)) in Heq.
Qed.

(** A name that no child key maps to keeps the parent's entry. *)
Lemma compose_over_miss keys this path router name :
  (∀ key, name = prefixed path key → _endpoints router !! key = None) →
  resolve (compose_over keys this path router) name = resolve this name.
Proof.
  intros Hmiss. unfold compose_over.
  induction keys as [|k ks IH] using rev_ind; [done|].
  rewrite foldl_snoc. unfold compose_step at 1.
  destruct (_endpoints router !! k) as [f|] eqn:Hk; [|done].
  rewrite resolve_endpoint_ne; [done|].
  intros <-. specialize (Hmiss k eq_refl). congruence.
Qed.

(** The result of the [reduce] does not depend on the order in which the
    keys are enumerated: it is the re-keyed child laid over the parent. *)
Lemma compose_over_union keys this path router :
  (∀ key, key ∈ keys ↔ is_Some (_endpoints router !! key)) →
  _endpoints (compose_over keys this path router)
  = rekey path (_endpoints router) ∪ _endpoints this.
Proof.
  intros Hkeys. apply map_eq. intros name. unfold rekey.
  destruct (kmap (M2 := gmap string) (prefixed path) (_endpoints router) !! name)
    as [f|] eqn:Hname.
  - rewrite (lookup_union_Some_l _ _ _ _ Hname).
    apply lookup_kmap_Some in Hname as (key & -> & Hkey); [|apply _].
    apply (compose_over_hit keys this path router key f); [|done].
    apply Hkeys. by exists f.
  - rewrite lookup_union_r by done.
    apply (compose_over_miss keys this path router name).
    intros key ->. by rewrite lookup_kmap in Hname by apply _.
Qed.

Lemma compose_union this path router :
  _endpoints (compose this path router)
  = rekey path (_endpoints router) ∪ _endpoints this.
Proof. apply compose_over_union. intros key. apply elem_of_Object_keys. Qed.

Lemma rekey_rekey p2 p1 (o : gmap string ResolverFn) :
  rekey p2 (rekey p1 o) = rekey (prefixed p2 p1) o.
Proof.
  apply map_eq. intros name. apply option_eq. intros f. unfold rekey.
  rewrite !lookup_kmap_Some by apply _. split.
  - intros (k & -> & Hk). apply lookup_kmap_Some in Hk as (q & -> & Hq); [|apply _].
    exists q. by rewrite prefixed_prefixed.
  - intros (q & -> & Hq). exists (prefixed p1 q). rewrite prefixed_prefixed.
    split; [done|]. by rewrite lookup_kmap by apply _.
Qed.

Lemma compose_new_None p A :
  _endpoints (compose (new None) p A) = rekey p (_endpoints A).
Proof. rewrite compose_union. simpl. apply (right_id_L ∅ (∪)). Qed.

(** Composing a composed registry: the child's entries land under the
    joined prefix, the inner parent's under the outer prefix. *)
Lemma compose_compose P P1 A p1 p2 :
  compose P p2 (compose P1 p1 A)
  = compose (compose P p2 P1) (prefixed p2 p1) A.
Proof.
  apply Router_eq. rewrite !compose_union. unfold rekey.
  rewrite kmap_union by apply _. fold (rekey p1 (_endpoints A)).
  fold (rekey p2 (rekey p1 (_endpoints A))). rewrite rekey_rekey.
  unfold rekey. by rewrite (assoc_L (∪)).
Qed.

Lemma compose_empty_child P p : compose P p (new None) = P.
Proof.
  apply Router_eq. rewrite compose_union. unfold rekey. simpl.
  rewrite kmap_empty. apply (left_id_L ∅ (∪)).
Qed.

Lemma joined_prefixed q p outer :
  joined (prefixed q p) outer = prefixed (joined q outer) p.
Proof.
  revert q p. induction outer as [|r rs IH]; intros q p; simpl; [done|].
  by rewrite prefixed_prefixed, IH.
Qed.

Lemma compose_nested_joined p outer A :
  compose_nested (p :: outer) A = compose (new None) (joined p outer) A.
Proof.
  revert p A. induction outer as [|q qs IH]; intros p A; [done|].
  change (compose_nested (p :: q :: qs) A)
    with (compose_nested (q :: qs) (compose (new None) p A)).
  rewrite IH, compose_compose, compose_empty_child.
  simpl. by rewrite joined_prefixed.
Qed.

(** C4: composing [A] under [p] resolves [p/q] to the procedure [A] holds
    at [q]; composing under [p1] and then under [p2] is the same registry
    as composing under [p2/p1], and so is a nesting of any depth under its
    joined prefix. *)
Theorem compose_resolves_and_associates P A p q f :
  resolve A q = Some f →
  resolve (compose P p A) (prefixed p q) = Some f
  ∧ (∀ p1 p2,
       compose P p2 (compose (new None) p1 A) = compose P (prefixed p2 p1) A)
  ∧ (∀ p1 outer,
       compose_nested (p1 :: outer) A = compose (new None) (joined p1 outer) A
       ∧ resolve (compose_nested (p1 :: outer) A) (prefixed (joined p1 outer) q)
         = Some f).
Proof.
  intros Hq. split; [|split].
  - apply compose_over_hit; [|done]. apply elem_of_Object_keys. by exists f.
  - intros p1 p2. by rewrite compose_compose, compose_empty_child.
  - intros p1 outer. rewrite compose_nested_joined. split; [done|].
    apply compose_over_hit; [|done]. apply elem_of_Object_keys. by exists f.
Qed.

(** C9, as the code has it: [endpoint] accepts every path, the empty one
    included, and the registry it returns holds the procedure there. *)
Theorem endpoint_accepts_empty_path this resolver :
  resolve (endpoint this "" resolver) "" = Some resolver
  ∧ "" ∈ Object_keys (_endpoints (endpoint this "" resolver)).
Proof.
  split; [apply resolve_endpoint_eq|].
  apply elem_of_Object_keys. rewrite endpoint_insert, lookup_insert_eq. by eexists.
Qed.

(** C10: a second registration under a path replaces the first, directly
    and when a composed child brings the path in; both operations are
    total, so nothing is ever rejected. *)
Theorem duplicate_registration_last_write_wins this router p q f g :
  resolve (endpoint (endpoint this p f) p g) p = Some g
  ∧ endpoint (endpoint this p f) p g = endpoint this p g
  ∧ resolve (compose (endpoint this (prefixed p q) f) p (endpoint router q g))
      (prefixed p q) = Some g.
Proof.
  split; [apply resolve_endpoint_eq|]. split.
  - apply Router_eq. rewrite !endpoint_insert. apply insert_insert_eq.
  - apply compose_over_hit.
    + apply elem_of_Object_keys. rewrite endpoint_insert, lookup_insert_eq. by eexists.
    + rewrite endpoint_insert. apply lookup_insert_eq.
Qed.

End WithResolver.

Lemma compose_resolves_and_associates_witness :
  resolve stub_registry "add" = Some 2%nat
  ∧ resolve (compose (new None) "todos" stub_registry) "todos/add" = Some 2%nat.
Proof.
  assert (resolve stub_registry "add" = Some 2%nat) as Hq by reflexivity.
  split; [exact Hq|].
  exact (proj1 (compose_resolves_and_associates (new None) stub_registry "todos" "add" 2%nat Hq)).
Defined.

(** C9 as stated fails: registering under the empty path is not rejected. *)
Lemma endpoint_empty_path_not_rejected :
  resolve (endpoint (new None) "" 1%nat) "" = Some 1%nat.
Proof. reflexivity. Qed.

End RouterFacts.

(** ** The error envelope and the query input *)

Module HttpFacts.

Import Http.

Local Open Scope Z_scope.
Local Open Scope list_scope.

(** A stand-in for [JSON.parse] that knows two documents. *)
Definition sample_JSON_parse (s : string) : string + JsVal :=
  if String.eqb s "null" then inr VNull
  else if String.eqb s "{}" then inr (VObject [])
  else if String.eqb s "" then inl "Unexpected end of JSON input"
  else inl ("Unexpected token in JSON: " +:+ s).

(** A stand-in for the text of large numbers that knows [10^21]. *)
Definition sample_largeNumberText (n : N) : string :=
  if (n =? 10 ^ 21)%N then "1e+21" else "9007199254740992".

Definition sample_env (node_env : option string) : Env :=
  mkEnv node_env (λ m, "Error: " +:+ m +:+ " at requestHandler")
    "Cannot read property 'input' of undefined" sample_JSON_parse
    sample_largeNumberText.

Definition dev_env : Env := sample_env (Some "development").
Definition prod_env : Env := sample_env (Some "production").

Definition sample_destroyProps (reason : Reason) : ErrorProps :=
  mkProps VUndefined (VStr "Subscription destroyed") (VStr "at Subscription.destroy").

(** A handler set up with a 50ms subscription timeout and a teardown hook;
    the router returns [{x: 1}] for every call. *)
Definition sample_opts (verb : option string) (q : QueryValue) (b : JsVal) : Opts :=
  mkOpts (mkRequest verb q b) (mkResponse None)
    (λ _, inr (VObject [("x", VNum 1)])) "feed"
    (Some (mkSubscriptionOptions (Some 50%N))) (inr VNull) (Some (inr tt)) None.

Definition subscription_world (events : list Signal) : World :=
  mkWorld dev_env (sample_opts (Some "PATCH") QUndefined (VObject [])) events
    sample_destroyProps.

(** The handle never produces anything. *)
Definition never_outputs : World := subscription_world [].
(** The client goes away before anything else happens. *)
Definition client_leaves : World := subscription_world [ClientClose].
(** The handle produces its output; the deadline passes afterwards. *)
Definition output_then_deadline : World :=
  subscription_world [HandleOutput (VNum 7); DeadlineElapsed].
(** A read without a query input. *)
Definition plain_read : World :=
  mkWorld dev_env (sample_opts None QUndefined VUndefined) [] sample_destroyProps.
(** A read whose query input is not JSON. *)
Definition garbled_read : World :=
  mkWorld dev_env (sample_opts (Some "GET") (QString "{oops") VUndefined) []
    sample_destroyProps.

(** The failure with its [stack] taken away. *)
Definition without_stack (err : Thrown) : Thrown :=
  match err with
  | InputValidationError m _ => InputValidationError m ""
  | RouteNotFoundError m _ => RouteNotFoundError m ""
  | HTTPError c m _ => HTTPError c m ""
  | SubscriptionDestroyError r p =>
      SubscriptionDestroyError r (mkProps (prop_statusCode p) (prop_message p) VUndefined)
  | OtherThrown p =>
      OtherThrown (mkProps (prop_statusCode p) (prop_message p) VUndefined)
  end.

(** The message a failure carries, if it is a string. *)
Definition own_message (err : Thrown) : option string :=
  match prop_message (props_of err) with VStr s => Some s | _ => None end.

(** C6 as stated fails: a plain [Error('boom')], which has no [statusCode],
    gets 500 but keeps its message. *)
Lemma plain_error_keeps_message :
  let json := getErrorResponseEnvelope prod_env
                (OtherThrown (mkProps VUndefined (VStr "boom") (VStr "Error: boom"))) in
  error_statusCode json = 500
  ∧ message (error json) = "boom"
  ∧ message (error json) ≠ "Internal Server Error".
Proof. repeat split. discriminate. Qed.

(** C6, as the code has it: validation failures map to 400 and missing
    routes to 404, an [HTTPError] keeps its pair, and for any other value, a
    subscription's termination failure included, the code is its own numeric
    [statusCode] or else 500 and the message its own string [message] or
    else the fixed text, each on its own; the result is always a failure
    envelope. *)
Theorem error_envelope_taxonomy env :
  (∀ m s, let json := getErrorResponseEnvelope env (InputValidationError m s) in
     error_statusCode json = 400 ∧ message (error json) = m)
  ∧ (∀ m s, let json := getErrorResponseEnvelope env (RouteNotFoundError m s) in
     error_statusCode json = 404 ∧ message (error json) = m)
  ∧ (∀ c m s, let json := getErrorResponseEnvelope env (HTTPError c m s) in
     error_statusCode json = c ∧ message (error json) = m)
  ∧ (∀ m, error_statusCode (getErrorResponseEnvelope env (unauthorized env m)) = 401
          ∧ error_statusCode (getErrorResponseEnvelope env (forbidden env m)) = 403)
  ∧ (∀ p, let json := getErrorResponseEnvelope env (OtherThrown p) in
     error_statusCode json
       = match prop_statusCode p with VNum n => n | _ => 500 end
     ∧ message (error json)
       = match prop_message p with VStr s => s | _ => "Internal Server Error" end)
  ∧ (∀ reason p,
       let json := getErrorResponseEnvelope env (SubscriptionDestroyError reason p) in
       error_statusCode json
         = match prop_statusCode p with VNum n => n | _ => 500 end
       ∧ message (error json)
         = match prop_message p with VStr s => s | _ => "Internal Server Error" end)
  ∧ (∀ err, ok (Failure (getErrorResponseEnvelope env err)) = false).
Proof. repeat split. Qed.

(** C7 as stated fails: under production configuration the message of a
    failure is passed on as it is, so two failures that differ in their
    message give different envelopes. *)
Lemma production_keeps_message :
  message (error (getErrorResponseEnvelope prod_env
                    (HTTPError 403 "no access to project 17" "at check")))
  = "no access to project 17"
  ∧ getErrorResponseEnvelope prod_env (HTTPError 403 "no access to project 17" "at check")
    ≠ getErrorResponseEnvelope prod_env (HTTPError 403 "no access to project 18" "at check").
Proof. split; [reflexivity|discriminate]. Qed.

Lemma production_true env : NODE_ENV env = Some "production" → production env = true.
Proof. intros H. unfold production. by apply bool_decide_eq_true. Qed.

Lemma production_false env : NODE_ENV env ≠ Some "production" → production env = false.
Proof. intros H. unfold production. by apply bool_decide_eq_false. Qed.

(** C7, as the code has it: production configuration leaves the stack out
    of every error envelope and nothing else; the message is the failure's
    own in every configuration, and two failures that differ only in their
    stack give the same envelope. *)
Theorem production_hides_stack_only env err1 err2 :
  message (error (getErrorResponseEnvelope env err1))
  = default "Internal Server Error" (own_message err1)
  ∧ (NODE_ENV env = Some "production" →
     stack (error (getErrorResponseEnvelope env err1)) = None
     ∧ (without_stack err1 = without_stack err2 →
        getErrorResponseEnvelope env err1 = getErrorResponseEnvelope env err2))
  ∧ (∀ s, stack (error (getErrorResponseEnvelope env err1)) = Some s →
          NODE_ENV env ≠ Some "production").
Proof.
  split; [|split].
  - unfold getErrorResponseEnvelope, own_message.
    destruct err1 as [| | | |]; simpl; try done; by destruct (prop_message _).
  - intros Hprod%production_true.
    unfold getErrorResponseEnvelope. rewrite Hprod. simpl. split; [done|].
    intros Hsame.
    destruct err1 as [m1 s1|m1 s1|c1 m1 s1|r1 [c1 m1 s1]|[c1 m1 s1]],
             err2 as [m2 s2|m2 s2|c2 m2 s2|r2 [c2 m2 s2]|[c2 m2 s2]];
      simpl in *; by simplify_eq.
  - intros s Hstack Hprod%production_true.
    unfold getErrorResponseEnvelope in Hstack. by rewrite Hprod in Hstack.
Qed.

Lemma production_hides_stack_only_witness :
  stack (error (getErrorResponseEnvelope prod_env (HTTPError 403 "Forbidden" "at a"))) = None
  ∧ getErrorResponseEnvelope prod_env (HTTPError 403 "Forbidden" "at a")
    = getErrorResponseEnvelope prod_env (HTTPError 403 "Forbidden" "at b").
Proof.
  pose proof (production_hides_stack_only prod_env
                (HTTPError 403 "Forbidden" "at a") (HTTPError 403 "Forbidden" "at b"))
    as (_ & Hprod & _).
  destruct (Hprod eq_refl) as [Hstack Hsame].
  exact (conj Hstack (Hsame eq_refl)).
Defined.

(** Outside production the stack of the failure is passed on. *)
Lemma development_exposes_stack env c m s :
  NODE_ENV env ≠ Some "production" →
  stack (error (getErrorResponseEnvelope env (HTTPError c m s))) = Some s.
Proof.
  intros Hdev%production_false. unfold getErrorResponseEnvelope. by rewrite Hdev.
Qed.

(** C8 as stated fails: a query [input] that is present but empty does not
    parse as JSON, yet it is taken for an absent one. *)
Lemma empty_query_input_is_no_error :
  JSON_parse dev_env "" = inl "Unexpected end of JSON input"
  ∧ getQueryInput dev_env (mkRequest (Some "GET") (QString "") VUndefined)
    = inr VUndefined.
Proof. split; reflexivity. Qed.

(** ** The request handler *)

(** What the teardown phase adds to the trace. *)
Definition teardown_effects (w : World) : list Effect :=
  match teardown (opts w) with
  | None => []
  | Some (inr _) => [ETeardown]
  | Some (inl err) => [ETeardown; EConsoleError "Teardown failed" err]
  end.

(** A stretch of the trace with no envelope and no teardown call in it. *)
Definition silent (t : list Effect) : Prop :=
  emitted t = [] ∧ teardowns t = 0%nat.

(** A computation that only adds such a stretch and does not wait for ever. *)
Definition modest {A} (m : M A) : Prop :=
  ∀ st, ∃ extra,
    trace (final (m st)) = trace st ++ extra ∧ silent extra
    ∧ match m st with Stuck _ => False | _ => True end.

Lemma emitted_app t1 t2 : emitted (t1 ++ t2) = emitted t1 ++ emitted t2.
Proof.
  induction t1 as [|e t1 IH]; [done|]. destruct e; simpl; by rewrite ?IH.
Qed.

Lemma teardowns_app t1 t2 : teardowns (t1 ++ t2) = (teardowns t1 + teardowns t2)%nat.
Proof.
  induction t1 as [|e t1 IH]; [done|]. destruct e; simpl; by rewrite ?IH.
Qed.

Lemma destroys_app t1 t2 : destroys (t1 ++ t2) = destroys t1 ++ destroys t2.
Proof.
  induction t1 as [|e t1 IH]; [done|]. destruct e; simpl; by rewrite ?IH.
Qed.

Lemma silent_nil : silent [].
Proof. by split. Qed.

Lemma silent_app t1 t2 : silent t1 → silent t2 → silent (t1 ++ t2).
Proof.
  intros [He1 Ht1] [He2 Ht2]. split.
  - by rewrite emitted_app, He1, He2.
  - by rewrite teardowns_app, Ht1, Ht2.
Qed.

Create HintDb handler.
#[local] Hint Resolve silent_nil silent_app : handler.

Section Handler.

Variable w : World.

Lemma modest_mret {A} (a : A) : modest (mret a : M A).
Proof. intros st. exists []. simpl. rewrite app_nil_r. auto with handler. Qed.

Lemma modest_throw {A} e : modest (throw e : M A).
Proof. intros st. exists []. simpl. rewrite app_nil_r. auto with handler. Qed.

Lemma modest_lift {A} (r : Thrown + A) : modest (lift r).
Proof. destruct r; [apply modest_throw|apply modest_mret]. Qed.

Lemma modest_log e :
  silent [e] → modest (log e).
Proof. intros He st. exists [e]. by simpl. Qed.

Lemma modest_bind {A B} (m : M A) (k : A → M B) :
  modest m → (∀ a, modest (k a)) → modest (m ≫= k).
Proof.
  intros Hm Hk st. destruct (Hm st) as (x1 & Ht1 & Hs1 & Hn1).
  unfold mbind, M_bind. destruct (m st) as [a st1|e st1|st1]; simpl in *;
    [|by exists x1|done].
  destruct (Hk a st1) as (x2 & Ht2 & Hs2 & Hn2).
  exists (x1 ++ x2). rewrite Ht2, Ht1, (assoc_L (++)). auto with handler.
Qed.

Lemma modest_try_catch {A} (m : M A) (h : Thrown → M A) :
  modest m → (∀ e, modest (h e)) → modest (try_catch m h).
Proof.
  intros Hm Hh st. destruct (Hm st) as (x1 & Ht1 & Hs1 & Hn1).
  unfold try_catch. destruct (m st) as [a st1|e st1|st1]; simpl in *;
    [by exists x1| |done].
  destruct (Hh e st1) as (x2 & Ht2 & Hs2 & Hn2).
  exists (x1 ++ x2). rewrite Ht2, Ht1, (assoc_L (++)). auto with handler.
Qed.

(** The handle keeps an outcome once it has one. *)
Lemma settle_handle_trace o st : trace (settle_handle o st) = trace st.
Proof. unfold settle_handle. by destruct (handle st). Qed.

Lemma settle_handle_settled o st : handle (settle_handle o st) ≠ None.
Proof. unfold settle_handle. by destruct (handle st) eqn:E; simpl; rewrite ?E. Qed.

Lemma settle_handle_timer o st :
  timerArmed (settle_handle o st) = timerArmed st.
Proof. unfold settle_handle. by destruct (handle st). Qed.

Lemma settle_handle_listener o st :
  closeListener (settle_handle o st) = closeListener st.
Proof. unfold settle_handle. by destruct (handle st). Qed.

Lemma settle_handle_keeps o st :
  handle st ≠ None → settle_handle o st = st.
Proof. unfold settle_handle. by destruct (handle st). Qed.

(** While the handle has no outcome the deadline timer is pending. *)
Definition timer_guards (st : State) : Prop :=
  handle st = None → timerArmed st = true.

Lemma deliver_trace s st :
  ∃ extra, trace (deliver w s st) = trace st ++ extra ∧ silent extra.
Proof.
  destruct s as [v|e| |]; simpl.
  - exists []. rewrite settle_handle_trace, app_nil_r. auto with handler.
  - exists []. rewrite settle_handle_trace, app_nil_r. auto with handler.
  - destruct (closeListener st).
    + exists [ESubDestroy closed]. unfold onClose, sub_destroy.
      by rewrite settle_handle_trace.
    + exists []. rewrite app_nil_r. auto with handler.
  - destruct (timerArmed st).
    + exists [ESubDestroy timeout]. unfold sub_destroy.
      by rewrite settle_handle_trace.
    + exists []. rewrite app_nil_r. auto with handler.
Qed.

Lemma deliver_guard s st : timer_guards st → timer_guards (deliver w s st).
Proof.
  intros Hg. destruct s as [v|e| |]; simpl.
  - intros Hn. by destruct (settle_handle_settled (inr v) st).
  - intros Hn. by destruct (settle_handle_settled (inl e) st).
  - destruct (closeListener st); [|done].
    intros Hn. by apply settle_handle_settled in Hn.
  - destruct (timerArmed st); [|done].
    intros Hn. by apply settle_handle_settled in Hn.
Qed.

Lemma deliver_all_trace events st :
  ∃ extra, trace (foldl (λ st s, deliver w s st) st events) = trace st ++ extra
           ∧ silent extra.
Proof.
  revert st. induction events as [|s rest IH]; intros st.
  - exists []. simpl. rewrite app_nil_r. auto with handler.
  - simpl. destruct (deliver_trace s st) as (x1 & Ht1 & Hs1).
    destruct (IH (deliver w s st)) as (x2 & Ht2 & Hs2).
    exists (x1 ++ x2). rewrite Ht2, Ht1, (assoc_L (++)). auto with handler.
Qed.

(** Waiting always comes to an end: an event settles the handle or, at the
    latest, the pending timer does. *)
Lemma settle_spec events st :
  timer_guards st →
  handle (settle w events st) ≠ None
  ∧ ∃ extra, trace (settle w events st) = trace st ++ extra ∧ silent extra.
Proof.
  revert st. induction events as [|s rest IH]; intros st Hg.
  - simpl. destruct (handle st) eqn:Hh.
    + simpl. split; [by rewrite Hh|]. exists []. rewrite app_nil_r. auto with handler.
    + simpl. rewrite (Hg Hh). simpl. split.
      * apply settle_handle_settled.
      * exists [ESubDestroy timeout]. unfold sub_destroy.
        by rewrite settle_handle_trace.
  - simpl. destruct (handle st) eqn:Hh.
    + simpl. split; [by rewrite Hh|]. exists []. rewrite app_nil_r. auto with handler.
    + destruct (deliver_trace s st) as (x1 & Ht1 & Hs1).
      destruct (IH _ (deliver_guard s st Hg)) as (Hset & x2 & Ht2 & Hs2).
      split; [done|].
      exists (x1 ++ x2). rewrite Ht2, Ht1, (assoc_L (++)). auto with handler.
Qed.

Lemma modest_await_subscription : modest (await_subscription w).
Proof.
  intros st. unfold await_subscription, mbind, M_bind, try_catch; simpl.
  set (st2 := set_timerArmed true _).
  destruct (settle_spec (pending st) st2) as (Hset & extra & Ht & Hs); [done|].
  unfold onceOutputAndStop. simpl.
  destruct (handle (settle w (pending st) st2)) as [[err|output]|]; [| |done].
  - exists ([EResOnceClose; ESetTimeout (the_timeout w)] ++ extra
             ++ [EResOffClose; EClearTimeout]).
    split; [|split].
    + assert (∀ e', trace (final (throw (A := JsVal) e'
                 (set_timerArmed false (record EClearTimeout
                   (set_closeListener false (record EResOffClose
                     (settle w (pending st) st2)))))))
               = trace st ++ [EResOnceClose; ESetTimeout (the_timeout w)] ++ extra
                 ++ [EResOffClose; EClearTimeout]) as Hall.
      { intros e'. simpl. rewrite Ht. subst st2. simpl.
        by rewrite <- !(assoc_L (++)). }
      destruct err as [| | |[]|]; apply Hall.
    + repeat apply silent_app; try done.
    + by destruct err as [| | |[]|].
  - exists ([EResOnceClose; ESetTimeout (the_timeout w)] ++ extra ++ [EResOffClose]).
    split; [|split; [|done]].
    + simpl. rewrite Ht. subst st2. simpl. by rewrite <- !(assoc_L (++)).
    + repeat apply silent_app; try done.
Qed.

Lemma modest_invoke args : modest (invoke w args).
Proof.
  apply modest_bind; [by apply modest_log|]. intros _. apply modest_lift.
Qed.

Lemma modest_dispatch : modest (dispatch w).
Proof.
  unfold dispatch.
  apply modest_bind; [by apply modest_log|]. intros _.
  apply modest_bind; [apply modest_lift|]. intros ctx.
  repeat case_match;
    repeat first
      [ apply modest_throw
      | apply modest_await_subscription
      | apply modest_invoke
      | apply modest_bind; [apply modest_lift || apply modest_invoke|intros ?] ].
Qed.

(** The outer [try]/[catch] writes exactly one envelope, as its last
    action, and returns. *)
Lemma respond_spec st :
  ∃ pre code json st',
    respond w st = Returns tt st'
    ∧ trace st' = trace st ++ pre ++ [EResStatusJson code json]
    ∧ silent pre.
Proof.
  destruct (modest_dispatch st) as (pre & Ht & Hs & Hn).
  unfold respond, try_catch, mbind, M_bind, res_status_json, log.
  destruct (dispatch w st) as [output st1|err st1|st1]; simpl in *; [| |done].
  - destruct (serialize (the_transformer w) output) as [err|data]; simpl.
    + eexists pre, _, _, _. split; [done|]. simpl. by rewrite Ht, (assoc_L (++)).
    + eexists pre, _, _, _. split; [done|]. simpl. by rewrite Ht, (assoc_L (++)).
  - eexists pre, _, _, _. split; [done|]. simpl. by rewrite Ht, (assoc_L (++)).
Qed.

(** The teardown phase calls the hook once if there is one, logs its
    failure, and returns. *)
Lemma run_teardown_spec st :
  ∃ st', run_teardown w st = Returns tt st'
         ∧ trace st' = trace st ++ teardown_effects w.
Proof.
  unfold run_teardown, teardown_effects, try_catch, mbind, M_bind, log.
  destruct (teardown (opts w)) as [[err|[]]|]; simpl.
  - eexists. split; [done|]. simpl. by rewrite <- (assoc_L (++)).
  - by eexists.
  - eexists. split; [done|]. by rewrite app_nil_r.
Qed.

Lemma teardowns_teardown_effects :
  teardowns (teardown_effects w) = match teardown (opts w) with Some _ => 1%nat | None => 0%nat end.
Proof. unfold teardown_effects. by destruct (teardown (opts w)) as [[|]|]. Qed.

Lemma emitted_teardown_effects : emitted (teardown_effects w) = [].
Proof. unfold teardown_effects. by destruct (teardown (opts w)) as [[|]|]. Qed.

(** C5: whatever the request and whatever happens to it, the handler
    returns; it has then written one envelope and, after it, called the
    teardown hook once if one was given, logging the hook's failure if it
    threw; nothing that follows writes an envelope or calls the hook. *)
Theorem teardown_once_after_envelope :
  ∃ pre code json late st,
    requestHandler w (initial w) = Returns tt st
    ∧ trace st = pre ++ EResStatusJson code json :: teardown_effects w
    ∧ run w = trace st ++ late
    ∧ silent pre ∧ silent late
    ∧ emitted (run w) = [(code, json)]
    ∧ teardowns (run w) = match teardown (opts w) with Some _ => 1%nat | None => 0%nat end.
Proof.
  destruct (respond_spec (initial w)) as (pre & code & json & st1 & Hr & Ht1 & Hs).
  destruct (run_teardown_spec st1) as (st2 & Htd & Ht2).
  assert (requestHandler w (initial w) = Returns tt st2) as Hrun.
  { unfold requestHandler, mbind, M_bind. by rewrite Hr. }
  assert (trace st2 = pre ++ EResStatusJson code json :: teardown_effects w) as Htr.
  { rewrite Ht2, Ht1. simpl. by rewrite <- (assoc_L (++)). }
  destruct (deliver_all_trace (pending st2) st2) as (late & Hl & Hsl).
  assert (run w = trace st2 ++ late) as Hfull.
  { unfold run, drain. by rewrite Hrun. }
  exists pre, code, json, late, st2. repeat split; try done; try apply Hs; try apply Hsl.
  - rewrite Hfull, Htr, !emitted_app. simpl.
    rewrite emitted_teardown_effects. destruct Hs as [-> _], Hsl as [-> _]. done.
  - rewrite Hfull, Htr, !teardowns_app. simpl.
    rewrite teardowns_teardown_effects. destruct Hs as [_ ->], Hsl as [_ ->]. lia.
Qed.

(** Nothing more is awaited once the handle has its outcome. *)
Lemma settle_done events st :
  handle st ≠ None → settle w events st = set_pending events st.
Proof. intros Hh. destruct events; simpl; by destruct (handle st). Qed.

(** Once the listener is off, the timer spent or cleared and the handle has
    its outcome, later events do nothing. *)
Definition idle (st : State) : Prop :=
  closeListener st = false ∧ timerArmed st = false ∧ handle st ≠ None.

Lemma deliver_idle s st : idle st → deliver w s st = st.
Proof.
  intros (Hl & Ha & Hh). destruct s as [v|e| |]; simpl.
  - by apply settle_handle_keeps.
  - by apply settle_handle_keeps.
  - by rewrite Hl.
  - by rewrite Ha.
Qed.

Lemma deliver_all_idle events st :
  idle st → foldl (λ st s, deliver w s st) st events = st.
Proof.
  intros Hi. induction events as [|s rest IH]; [done|].
  simpl. by rewrite deliver_idle.
Qed.

End Handler.

(** Unfolds the handler down to its primitive steps. *)
Ltac unfold_handler :=
  unfold run, drain, requestHandler, respond, run_teardown, dispatch,
    await_subscription, onceOutputAndStop, invoke, res_status_json,
    res_once_close, res_off_close, setTimeout, clearTimeout,
    try_catch, log, lift, throw, initial, mbind, mret, M_bind, M_ret.

(** The arguments [router.invoke] receives for a subscription. *)
Definition subscription_args (w : World) (input ctx : JsVal) : InvokeArgs :=
  mkInvokeArgs Target.subscriptions input ctx (endpoint (opts w)).

(** C3: when the deadline is the first thing to happen to a subscription,
    the handle is asked once to terminate with reason [timeout], and the one
    envelope written is a failure with status 408 whose message is
    [Subscription exceeded <N>ms - please reconnect.], [<N>] being the
    configured timeout, as the template literal prints it, or 9000 when none
    is configured; a timeout below [2^53] appears as its decimal digits. *)
Theorem deadline_first_gives_408 (w : World) (c raw inp h : JsVal) :
  method (req (opts w)) = Some "PATCH" →
  createContext (opts w) = inr c →
  get_input (process w) (body (req (opts w))) = inr raw →
  deserializeInput w raw = inr inp →
  router_invoke (opts w) (subscription_args w inp c) = inr h →
  hd DeadlineElapsed (signals w) = DeadlineElapsed →
  let ms := match subscriptions (opts w) with
            | Some (mkSubscriptionOptions (Some n)) => n
            | _ => 9000%N
            end in
  let text := "Subscription exceeded " +:+ Number_toString (process w) ms
              +:+ "ms - please reconnect." in
  let json := mkErrorEnvelope 408
                (mkErrorBody text
                   (if production (process w) then None
                    else Some (captureStack (process w) text))) in
  run w = [ECreateContext; EInvoke (subscription_args w inp c);
           EResOnceClose; ESetTimeout ms; ESubDestroy timeout;
           EResOffClose; EClearTimeout; EResStatusJson 408 (Failure json)]
          ++ teardown_effects w
  ∧ emitted (run w) = [(408, Failure json)]
  ∧ destroys (run w) = [timeout]
  ∧ ((ms < 2 ^ 53)%N →
     text = "Subscription exceeded " +:+ pretty ms +:+ "ms - please reconnect.")
  ∧ (subscriptions (opts w) ≫= opt_timeout = None →
     text = "Subscription exceeded 9000ms - please reconnect.").
Proof.
  intros Hmethod Hctx Hraw Hinp Hinvoke Hfirst ms text json.
  assert ((ms < 2 ^ 53)%N →
          text = "Subscription exceeded " +:+ pretty ms +:+ "ms - please reconnect.")
    as Hsafe.
  { intros Hlt%N.ltb_lt. unfold text, Number_toString. by rewrite Hlt. }
  assert (subscriptions (opts w) ≫= opt_timeout = None →
          text = "Subscription exceeded 9000ms - please reconnect.") as Hdefault.
  { intros Hnone. unfold text, ms.
    destruct (subscriptions (opts w)) as [[[n|]]|]; simpl in Hnone;
      [discriminate|reflexivity|reflexivity]. }
  assert (the_timeout w = ms) as Hms.
  { unfold the_timeout, ms. by destruct (subscriptions (opts w)) as [[[n|]]|]. }
  assert (run w = [ECreateContext; EInvoke (subscription_args w inp c);
           EResOnceClose; ESetTimeout ms; ESubDestroy timeout;
           EResOffClose; EClearTimeout; EResStatusJson 408 (Failure json)]
          ++ teardown_effects w) as Hrun.
  { unfold subscription_args in *. unfold_handler.
    rewrite Hctx, Hmethod. simpl. rewrite Hraw, Hinp. simpl. rewrite Hinvoke, Hms. simpl.
    unfold teardown_effects, json, text, getErrorResponseEnvelope, exceeded_message.
    destruct (signals w) as [|[v|e| |] rest]; simpl in Hfirst; try discriminate;
      simpl; rewrite ?settle_done by (cbv; discriminate); simpl;
      destruct (teardown (opts w)) as [[err|[]]|]; simpl;
      rewrite ?deliver_all_idle by (by repeat split).
    all: destruct (production (process w)); reflexivity. }
  split; [done|]. rewrite Hrun, emitted_app, destroys_app. simpl.
  unfold teardown_effects. by destruct (teardown (opts w)) as [[err|[]]|].
Qed.

Lemma deadline_first_gives_408_witness :
  emitted (run never_outputs)
  = [(408, Failure (mkErrorEnvelope 408
        (mkErrorBody "Subscription exceeded 50ms - please reconnect."
           (Some "Error: Subscription exceeded 50ms - please reconnect. at requestHandler"))))]
  ∧ destroys (run never_outputs) = [timeout].
Proof.
  pose proof (deadline_first_gives_408 never_outputs VNull VUndefined VUndefined
                (VObject [("x", VNum 1)])
                eq_refl eq_refl eq_refl eq_refl eq_refl eq_refl)
    as (_ & Hemitted & Hdestroyed & _).
  exact (conj Hemitted Hdestroyed).
Defined.

(** C2 as stated fails: when the client disconnects first, the rejection of
    the wait reaches the outer [catch] and a failure envelope is written. *)
Lemma client_close_writes_envelope :
  emitted (run client_leaves)
  = [(500, Failure (mkErrorEnvelope 500
        (mkErrorBody "Subscription destroyed" (Some "at Subscription.destroy"))))]
  ∧ emitted (run client_leaves) ≠ [].
Proof. split; [reflexivity|discriminate]. Qed.

(** C2, as the code has it: when the client disconnects first, the handle is
    asked once to terminate with reason [closed], listener and timer are
    released, and the rejection of the wait is answered like any other
    failure, with the error envelope built from it; teardown follows. *)
Theorem client_close_first_destroys_and_fails (w : World) (c raw inp h : JsVal) rest :
  method (req (opts w)) = Some "PATCH" →
  createContext (opts w) = inr c →
  get_input (process w) (body (req (opts w))) = inr raw →
  deserializeInput w raw = inr inp →
  router_invoke (opts w) (subscription_args w inp c) = inr h →
  signals w = ClientClose :: rest →
  let json := getErrorResponseEnvelope (process w)
                (SubscriptionDestroyError closed (destroyProps w closed)) in
  run w = [ECreateContext; EInvoke (subscription_args w inp c);
           EResOnceClose; ESetTimeout (the_timeout w); ESubDestroy closed;
           EResOffClose; EClearTimeout;
           EResStatusJson (error_statusCode json) (Failure json)]
          ++ teardown_effects w
  ∧ emitted (run w) = [(error_statusCode json, Failure json)]
  ∧ destroys (run w) = [closed].
Proof.
  intros Hmethod Hctx Hraw Hinp Hinvoke Hsignals json.
  assert (run w = [ECreateContext; EInvoke (subscription_args w inp c);
           EResOnceClose; ESetTimeout (the_timeout w); ESubDestroy closed;
           EResOffClose; EClearTimeout;
           EResStatusJson (error_statusCode json) (Failure json)]
          ++ teardown_effects w) as Hrun.
  { unfold subscription_args in *. unfold_handler.
    rewrite Hctx, Hmethod. simpl. rewrite Hraw, Hinp. simpl. rewrite Hinvoke, Hsignals.
    simpl. rewrite ?settle_done by (cbv; discriminate). simpl.
    unfold teardown_effects.
    destruct (teardown (opts w)) as [[err|[]]|]; simpl;
      by rewrite ?deliver_all_idle by (by repeat split). }
  split; [done|]. rewrite Hrun, emitted_app, destroys_app. simpl.
  unfold teardown_effects. by destruct (teardown (opts w)) as [[err|[]]|].
Qed.

Lemma client_close_first_destroys_and_fails_witness :
  destroys (run client_leaves) = [closed]
  ∧ map fst (emitted (run client_leaves)) = [500].
Proof.
  pose proof (client_close_first_destroys_and_fails client_leaves VNull VUndefined
                VUndefined (VObject [("x", VNum 1)]) []
                eq_refl eq_refl eq_refl eq_refl eq_refl eq_refl) as (_ & He & Hd).
  split; [exact Hd|]. rewrite He. reflexivity.
Defined.

(** C1 fails on the success path: the handle has produced its output and the
    success envelope is written, but the timer was never cleared; it is
    still pending when the handler returns, and when the deadline passes the
    handle is asked to terminate with reason [timeout]. *)
Theorem success_path_leaves_timer_armed (w : World) (c raw inp h v d : JsVal) rest :
  method (req (opts w)) = Some "PATCH" →
  createContext (opts w) = inr c →
  get_input (process w) (body (req (opts w))) = inr raw →
  deserializeInput w raw = inr inp →
  router_invoke (opts w) (subscription_args w inp c) = inr h →
  signals w = HandleOutput v :: DeadlineElapsed :: rest →
  serialize (the_transformer w) v = inr d →
  let code := default 200 (res_statusCode (res (opts w))) in
  timerArmed (final (requestHandler w (initial w))) = true
  ∧ run w = [ECreateContext; EInvoke (subscription_args w inp c);
             EResOnceClose; ESetTimeout (the_timeout w); EResOffClose;
             EResStatusJson code (Success (mkSuccessEnvelope code d))]
            ++ teardown_effects w ++ [ESubDestroy timeout].
Proof.
  intros Hmethod Hctx Hraw Hinp Hinvoke Hsignals Hdata code.
  unfold subscription_args in *. unfold_handler.
  rewrite Hctx, Hmethod. simpl. rewrite Hraw, Hinp. simpl. rewrite Hinvoke, Hsignals.
  simpl. rewrite ?settle_done by (cbv; discriminate). simpl. rewrite Hdata. simpl.
  unfold teardown_effects.
  destruct (teardown (opts w)) as [[err|[]]|]; simpl;
    by rewrite ?deliver_all_idle by (by repeat split).
Qed.

Lemma success_path_leaves_timer_armed_witness :
  timerArmed (final (requestHandler output_then_deadline (initial output_then_deadline)))
  = true
  ∧ destroys (run output_then_deadline) = [timeout]
  ∧ emitted (run output_then_deadline)
    = [(200, Success (mkSuccessEnvelope 200 (VNum 7)))].
Proof.
  pose proof (success_path_leaves_timer_armed output_then_deadline VNull VUndefined
                VUndefined (VObject [("x", VNum 1)]) (VNum 7) (VNum 7) []
                eq_refl eq_refl eq_refl eq_refl eq_refl eq_refl eq_refl) as (Ha & Hr).
  split; [exact Ha|]. rewrite Hr. split; reflexivity.
Defined.

(** Events after the handler has finished write no envelope. *)
Lemma emitted_run (w : World) :
  emitted (run w) = emitted (trace (final (requestHandler w (initial w)))).
Proof.
  unfold run, drain. simpl.
  destruct (deliver_all_trace w (pending (final (requestHandler w (initial w))))
              (final (requestHandler w (initial w)))) as (late & -> & [Hl _]).
  by rewrite emitted_app, Hl, app_nil_r.
Qed.

(** C8, as the code has it: a read whose query input is absent or the empty
    string, and a write, be it a [POST] or a [PATCH], whose body reads no
    [input] (an object without that field, for one), hand [undefined] to
    the procedure without raising anything; a read whose query input is a
    non-empty string that does not parse, or is no string at all, is answered
    with status 400 and one fixed message, whatever the parser reported. *)
Theorem payload_absent_or_malformed (w : World) (c : JsVal) :
  createContext (opts w) = inr c →
  let fixed := "Expected query.input to be a JSON string" in
  let rejected :=
    mkErrorEnvelope 400
      (mkErrorBody fixed
         (if production (process w) then None
          else Some (captureStack (process w) fixed))) in
  (default "GET" (method (req (opts w))) = "GET" →
   query_falsy (query_input (req (opts w))) = true →
   getQueryInput (process w) (req (opts w)) = inr VUndefined
   ∧ dispatch w (initial w)
     = invoke w (mkInvokeArgs Target.queries VUndefined c (endpoint (opts w)))
         (record ECreateContext (initial w)))
  ∧ (method (req (opts w)) = Some "POST" →
     get_input (process w) (body (req (opts w))) = inr VUndefined →
     dispatch w (initial w)
     = invoke w (mkInvokeArgs Target.mutations VUndefined c (endpoint (opts w)))
         (record ECreateContext (initial w)))
  ∧ (method (req (opts w)) = Some "PATCH" →
     get_input (process w) (body (req (opts w))) = inr VUndefined →
     dispatch w (initial w)
     = (invoke w (mkInvokeArgs Target.subscriptions VUndefined c (endpoint (opts w)))
        ≫= λ _, await_subscription w)
         (record ECreateContext (initial w)))
  ∧ (∀ fields,
       body (req (opts w)) = VObject fields →
       lookup_field "input" fields = VUndefined →
       get_input (process w) (body (req (opts w))) = inr VUndefined)
  ∧ (∀ s text,
       default "GET" (method (req (opts w))) = "GET" →
       query_input (req (opts w)) = QString s → s ≠ "" →
       JSON_parse (process w) s = inl text →
       emitted (run w) = [(400, Failure rejected)])
  ∧ (default "GET" (method (req (opts w))) = "GET" →
     query_falsy (query_input (req (opts w))) = false →
     (∀ s, query_input (req (opts w)) ≠ QString s) →
     emitted (run w) = [(400, Failure rejected)]).
Proof.
  intros Hctx fixed rejected. split; [|split; [|split; [|split; [|split]]]].
  - intros Hm Hq. split.
    + unfold getQueryInput. by rewrite Hq.
    + unfold dispatch, lift, log, mbind, M_bind, mret, M_ret.
      rewrite Hctx, Hm. simpl. unfold getQueryInput. by rewrite Hq.
  - intros Hm Hb.
    unfold dispatch, lift, log, mbind, M_bind, mret, M_ret.
    rewrite Hctx, Hm. simpl. by rewrite Hb.
  - intros Hm Hb.
    unfold dispatch, lift, log, mbind, M_bind, mret, M_ret.
    rewrite Hctx, Hm. simpl. by rewrite Hb.
  - intros fields Hb Hf. rewrite Hb. simpl. by rewrite Hf.
  - intros s text Hm Hq Hs Hparse. rewrite emitted_run. unfold_handler.
    rewrite Hctx, Hm. simpl. unfold getQueryInput. rewrite Hq. simpl.
    assert (String.eqb s "" = false) as -> by by apply String.eqb_neq.
    rewrite Hparse. simpl. unfold rejected, getErrorResponseEnvelope. simpl.
    by destruct (teardown (opts w)) as [[err|[]]|], (production (process w)).
  - intros Hm Hq Hns. rewrite emitted_run. unfold_handler.
    rewrite Hctx, Hm. simpl. unfold getQueryInput. rewrite Hq.
    destruct (query_input (req (opts w))) as [|s| | |] eqn:Hqi;
      [done|by destruct (Hns s)|..]; simpl;
      unfold rejected, getErrorResponseEnvelope; simpl;
      by destruct (teardown (opts w)) as [[err|[]]|], (production (process w)).
Qed.

Lemma payload_absent_or_malformed_witness :
  dispatch plain_read (initial plain_read)
  = invoke plain_read (mkInvokeArgs Target.queries VUndefined VNull "feed")
      (record ECreateContext (initial plain_read))
  ∧ map fst (emitted (run garbled_read)) = [400]
  ∧ dispatch never_outputs (initial never_outputs)
    = (invoke never_outputs (mkInvokeArgs Target.subscriptions VUndefined VNull "feed")
       ≫= λ _, await_subscription never_outputs)
        (record ECreateContext (initial never_outputs)).
Proof.
  pose proof (payload_absent_or_malformed plain_read VNull eq_refl) as (Ha & _).
  pose proof (payload_absent_or_malformed garbled_read VNull eq_refl)
    as (_ & _ & _ & _ & Hc & _).
  pose proof (payload_absent_or_malformed never_outputs VNull eq_refl)
    as (_ & _ & Hp & _).
  split; [|split].
  - exact (proj2 (Ha eq_refl eq_refl)).
  - rewrite (Hc "{oops" "Unexpected token in JSON: {oops" eq_refl eq_refl
               ltac:(discriminate) eq_refl).
    reflexivity.
  - exact (Hp eq_refl eq_refl).
Defined.

End HttpFacts.

(** * Further properties of the registry *)

Module RouterMore.

Import Router RouterFacts.

Section Probing.

Context {ResolverFn : Type}.

(** Whether a plain object inherits a member under the given name (from
    [Object.prototype]: [toString], [constructor], ...); every such member
    is truthy. *)
Variable inherited : string → bool.

(** [has(path)]: [!!this._endpoints[path]]. An own entry is a resolver
    function, hence truthy; a name that is no own key is looked up along
    the prototype chain. *)
Definition has (this : Router ResolverFn) (path : string) : bool :=
  match _endpoints this !! path with
  | Some _ => true
  | None => inherited path
  end.

End Probing.

Section Calling.

Context {TContext TArgs TData : Type}.

(** Resolvers as callables: [(ctx, ...args) => data]. *)
Abbreviation Resolver := (TContext → TArgs → TData).

(** [handler(ctx)(path, ...args)]: [this._endpoints[path](ctx, ...args)],
    for the paths the type [keyof TEndpoints] admits, the own keys; [None]
    stands for a path that is no own key. *)
Definition handler (this : Router Resolver) (ctx : TContext)
    (path : string) (args : TArgs) : option TData :=
  match _endpoints this !! path with
  | Some resolver => Some (resolver ctx args)
  | None => None
  end.

End Calling.

(** A registry of two callable stubs. *)
Definition callable_registry : Router (nat → nat → nat) :=
  endpoint (endpoint (new None) "double" (λ _ n, 2 * n)) "shift" (λ ctx n, ctx + n).

Section WithResolver.

Context {ResolverFn : Type}.
Implicit Types (this router A P : Router ResolverFn) (resolver f g : ResolverFn).

(** X1: composition only writes names of the form [path/key] for a key of
    the child; under every other name the parent's entry, or its absence,
    is what it was. *)
Theorem compose_keeps_other_paths P A path name :
  (∀ key, name = prefixed path key → resolve A key = None) →
  resolve (compose P path A) name = resolve P name.
Proof. intros Hother. by apply compose_over_miss. Qed.

(** X2: the names a composed registry holds are those of the parent and the
    prefixed names of the child, and nothing else; composing into an empty
    registry keeps the number of entries. *)
Theorem compose_key_set P A path :
  (∀ name,
     is_Some (resolve (compose P path A) name)
     ↔ is_Some (resolve P name)
       ∨ ∃ key, name = prefixed path key ∧ is_Some (resolve A key))
  ∧ size (_endpoints (compose (new None) path A)) = size (_endpoints A).
Proof.
  split.
  - intros name. unfold resolve. rewrite compose_union, lookup_union_is_Some.
    unfold rekey. rewrite lookup_kmap_is_Some by apply _. tauto.
  - rewrite compose_new_None. unfold rekey.
    rewrite <- !length_map_to_list, map_to_list_kmap by apply _.
    by rewrite length_fmap.
Qed.

(** X3: registering in the child and then composing is composing and then
    registering under the prefixed name. *)
Theorem compose_endpoint P A path key f :
  compose P path (endpoint A key f)
  = endpoint (compose P path A) (prefixed path key) f.
Proof.
  apply Router_eq. rewrite endpoint_insert, !compose_union, endpoint_insert.
  unfold rekey. rewrite kmap_insert by apply _. by rewrite insert_union_l.
Qed.

(** X4: the result of [compose] does not depend on the order in which the
    child's keys are enumerated, nor on a key being enumerated twice. *)
Theorem compose_any_order keys this path router :
  list_to_set keys =@{gset string} dom (_endpoints router) →
  compose_over keys this path router = compose this path router.
Proof.
  intros Hkeys. apply Router_eq. rewrite compose_union.
  apply compose_over_union. intros key.
  by rewrite <- elem_of_dom, <- Hkeys, elem_of_list_to_set.
Qed.

(** X5: registration never removes a path: whatever [has] reports before an
    [endpoint] or a [compose], it reports afterwards; and what was just
    registered is reported. *)
Theorem has_monotone (inherited : string → bool) this router path key f name :
  (has inherited this name = true →
   has inherited (endpoint this path f) name = true
   ∧ has inherited (compose this path router) name = true)
  ∧ has inherited (endpoint this path f) path = true
  ∧ (is_Some (resolve router key) →
     has inherited (compose this path router) (prefixed path key) = true).
Proof.
  unfold has. split; [|split].
  - intros Hhas. split.
    + rewrite endpoint_insert. destruct (decide (path = name)) as [->|Hne].
      * by rewrite lookup_insert_eq.
      * by rewrite lookup_insert_ne.
    + rewrite compose_union.
      destruct (_endpoints this !! name) as [g|] eqn:Hname.
      * destruct (rekey path (_endpoints router) !! name) as [g'|] eqn:Hre.
        -- by rewrite (lookup_union_Some_l _ _ _ _ Hre).
        -- by rewrite lookup_union_r, Hname.
      * destruct (rekey path (_endpoints router) !! name) as [g'|] eqn:Hre.
        -- by rewrite (lookup_union_Some_l _ _ _ _ Hre).
        -- by rewrite lookup_union_r, Hname.
  - by rewrite endpoint_insert, lookup_insert_eq.
  - intros [g Hg].
    assert (resolve (compose this path router) (prefixed path key) = Some g) as Hhit.
    { apply compose_over_hit; [|done]. apply elem_of_Object_keys. by exists g. }
    unfold resolve in Hhit. by rewrite Hhit.
Qed.

End WithResolver.

Section Calls.

Context {TContext TArgs TData : Type}.
Implicit Types (this A P : Router (TContext → TArgs → TData)).

(** X6: a call through a composed registry under [path/key] runs the
    child's resolver for [key] on the same context and arguments. *)
Theorem handler_compose P A path key ctx args :
  is_Some (resolve A key) →
  handler (compose P path A) ctx (prefixed path key) args = handler A ctx key args
  ∧ is_Some (handler (compose P path A) ctx (prefixed path key) args).
Proof.
  intros [f Hf].
  assert (resolve (compose P path A) (prefixed path key) = Some f) as Hhit.
  { apply compose_over_hit; [|done]. apply elem_of_Object_keys. by exists f. }
  unfold handler, resolve in *. rewrite Hhit, Hf. by split.
Qed.

End Calls.

Lemma compose_keeps_other_paths_witness :
  resolve (compose (endpoint (new None) "health" 9%nat) "todos" stub_registry) "health"
  = Some 9%nat.
Proof.
  rewrite (compose_keeps_other_paths (endpoint (new None) "health" 9%nat)
             stub_registry "todos" "health").
  - reflexivity.
  - intros key Hname. discriminate Hname.
Defined.

Lemma compose_any_order_witness :
  compose_over ["add"; "list"; "add"] (new None) "todos" stub_registry
  = compose (new None) "todos" stub_registry.
Proof.
  apply (compose_any_order ["add"; "list"; "add"] (new None) "todos" stub_registry).
  reflexivity.
Defined.

Lemma handler_compose_witness :
  handler (compose (new None) "math" callable_registry) 1%nat "math/shift" 4%nat
  = Some 5%nat.
Proof.
  pose proof (handler_compose (new None) callable_registry "math" "shift" 1%nat 4%nat
                (ex_intro _ _ eq_refl)) as [Hcall _].
  exact (eq_trans Hcall eq_refl).
Defined.

Lemma has_monotone_witness :
  has (λ _, false) (compose stub_registry "todos" stub_registry) "list" = true.
Proof.
  pose proof (has_monotone (λ _, false) stub_registry stub_registry "todos" "add"
                1%nat "list") as [Hkeep _].
  exact (proj2 (Hkeep eq_refl)).
Defined.

End RouterMore.

(** * Further properties of the HTTP layer *)

Module HttpMore.

Import Http HttpFacts.

Local Open Scope Z_scope.
Local Open Scope list_scope.

(** The calls made to [router.invoke], in order. *)
Fixpoint invoked (t : list Effect) : list InvokeArgs :=
  match t with
  | [] => []
  | EInvoke args :: rest => args :: invoked rest
  | _ :: rest => invoked rest
  end.

(** The [statusCode] field an envelope carries. *)
Definition envelope_statusCode (json : HTTPResponseEnvelope) : Z :=
  match json with
  | Success j => statusCode j
  | Failure j => error_statusCode j
  end.

(** The text [getQueryInput] rejects with. *)
Definition expected_json : string := "Expected query.input to be a JSON string".

(** A read with a query input that parses. *)
Definition parsed_read : World :=
  mkWorld dev_env (sample_opts (Some "GET") (QString "{}") VUndefined) []
    sample_destroyProps.

(** X7: [getQueryInput] fails in one way only: with the [HTTPError] of
    status 400 and the fixed text; and it fails exactly when the query input
    is non-empty and is no string or does not parse. *)
Theorem getQueryInput_failure env req err :
  getQueryInput env req = inl err →
  err = badRequest env (Some expected_json)
  ∧ error_statusCode (getErrorResponseEnvelope env err) = 400
  ∧ message (error (getErrorResponseEnvelope env err)) = expected_json
  ∧ query_falsy (query_input req) = false
  ∧ ∀ s, query_input req = QString s → ∃ text, JSON_parse env s = inl text.
Proof.
  unfold getQueryInput. intros Hfail.
  destruct (query_falsy (query_input req)) eqn:Hfalsy; [done|].
  destruct (query_input req) as [|s| | |] eqn:Hq.
  - done.
  - destruct (JSON_parse env s) as [text|v] eqn:Hparse; [|done].
    inversion Hfail; subst. repeat split; try done.
    intros s' [= <-]. by exists text.
  - inversion Hfail; subst. by repeat split.
  - inversion Hfail; subst. by repeat split.
  - inversion Hfail; subst. by repeat split.
Qed.

Lemma getQueryInput_failure_witness :
  message (error (getErrorResponseEnvelope dev_env
                    (badRequest dev_env (Some expected_json))))
  = expected_json.
Proof.
  pose proof (getQueryInput_failure dev_env (req (opts garbled_read))
                (badRequest dev_env (Some expected_json)) eq_refl)
    as (_ & _ & Hmessage & _).
  exact Hmessage.
Defined.

(** A non-empty query input that parses is returned as [JSON.parse] gives
    it. *)
Lemma getQueryInput_parsed env req s v :
  query_input req = QString s → s ≠ "" →
  JSON_parse env s = inr v →
  getQueryInput env req = inr v.
Proof.
  intros Hq Hs Hparse. unfold getQueryInput. rewrite Hq. simpl.
  assert (String.eqb s "" = false) as -> by by apply String.eqb_neq.
  by rewrite Hparse.
Qed.

(** X8: an input-validation failure is answered exactly as
    [httpError.badRequest] of its message is, and a missing route as
    [httpError.notFound] of its message: the stack of the original failure
    never reaches the envelope. *)
Theorem wrapped_failures_lose_their_stack env m s :
  getErrorResponseEnvelope env (InputValidationError m s)
  = getErrorResponseEnvelope env (badRequest env (Some m))
  ∧ getErrorResponseEnvelope env (RouteNotFoundError m s)
    = getErrorResponseEnvelope env (notFound env (Some m))
  ∧ (NODE_ENV env ≠ Some "production" →
     stack (error (getErrorResponseEnvelope env (InputValidationError m s)))
     = Some (captureStack env m)).
Proof.
  repeat split. intros Hdev%production_false.
  unfold getErrorResponseEnvelope. by rewrite Hdev.
Qed.

Lemma wrapped_failures_lose_their_stack_witness :
  stack (error (getErrorResponseEnvelope dev_env
                  (InputValidationError "name is required" "at validate")))
  = Some "Error: name is required at requestHandler".
Proof.
  pose proof (wrapped_failures_lose_their_stack dev_env "name is required" "at validate")
    as (_ & _ & Hstack).
  exact (Hstack ltac:(discriminate)).
Defined.

Section Handler.

Variable w : World.

(** The outer [try]/[catch] hands [res.status] the [statusCode] of the
    envelope it writes. *)
Lemma respond_status st :
  ∃ pre code json st',
    respond w st = Returns tt st'
    ∧ trace st' = trace st ++ pre ++ [EResStatusJson code json]
    ∧ silent pre
    ∧ code = envelope_statusCode json.
Proof.
  destruct (modest_dispatch w st) as (pre & Ht & Hs & Hn).
  unfold respond, try_catch, mbind, M_bind, res_status_json, log.
  destruct (dispatch w st) as [output st1|err st1|st1]; simpl in *; [| |done].
  - destruct (serialize (the_transformer w) output) as [err|data]; simpl.
    + eexists pre, _, _, _. split; [done|]. simpl. by rewrite Ht, (assoc_L (++)).
    + eexists pre, _, _, _. split; [done|]. simpl. by rewrite Ht, (assoc_L (++)).
  - eexists pre, _, _, _. split; [done|]. simpl. by rewrite Ht, (assoc_L (++)).
Qed.

(** X9: for every request, the status set on the response is the
    [statusCode] of the one envelope written. *)
Theorem status_matches_envelope :
  ∃ code json,
    emitted (run w) = [(code, json)] ∧ code = envelope_statusCode json.
Proof.
  destruct (respond_status (initial w)) as (pre & code & json & st1 & Hr & Ht1 & Hs & Hc).
  destruct (run_teardown_spec w st1) as (st2 & Htd & Ht2).
  exists code, json. split; [|done].
  rewrite emitted_run. unfold requestHandler, mbind, M_bind. rewrite Hr, Htd. simpl.
  rewrite Ht2, Ht1. simpl. rewrite !emitted_app, emitted_teardown_effects.
  destruct Hs as [-> _]. done.
Qed.

End Handler.

(** ** Queries and mutations *)

(** The request is a mutation or a query whose raw input reads as [raw]. *)
Definition reads_input (w : World) (target : Target.t) (raw : JsVal) : Prop :=
  (method (req (opts w)) = Some "POST" ∧ target = Target.mutations
   ∧ get_input (process w) (body (req (opts w))) = inr raw)
  ∨ (default "GET" (method (req (opts w))) = "GET" ∧ target = Target.queries
     ∧ getQueryInput (process w) (req (opts w)) = inr raw).

(** What a query or mutation is answered with, given the outcome of the
    procedure. *)
Definition plain_answer (w : World) (outcome : Thrown + JsVal) : HTTPResponseEnvelope :=
  match outcome with
  | inl err => Failure (getErrorResponseEnvelope (process w) err)
  | inr output =>
      match serialize (the_transformer w) output with
      | inl err => Failure (getErrorResponseEnvelope (process w) err)
      | inr data =>
          Success (mkSuccessEnvelope (default 200 (res_statusCode (res (opts w)))) data)
      end
  end.

(** The same world with another request method. *)
Definition with_method (verb : option string) (w : World) : World :=
  let o := opts w in
  mkWorld (process w)
    (mkOpts (mkRequest verb (query_input (req o)) (body (req o))) (res o)
       (router_invoke o) (endpoint o) (subscriptions o) (createContext o)
       (teardown o) (transformer o))
    (signals w) (destroyProps w).

(** A transformer whose [deserialize] rejects everything. *)
Definition strict_transformer : DataTransformer :=
  mkTransformer inr (λ _, inl (OtherThrown (mkProps VUndefined (VStr "cannot decode") VUndefined))).

(** A mutation with a numeric input, behind [strict_transformer]; the
    procedure echoes its input. *)
Definition strict_mutation (n : Z) : World :=
  mkWorld dev_env
    (mkOpts (mkRequest (Some "POST") QUndefined (VObject [("input", VNum n)]))
       (mkResponse (Some 201)) (λ args, inr (input args)) "counter/set"
       None (inr VNull) None (Some strict_transformer))
    [ClientClose] sample_destroyProps.

(** A request whose context factory refuses. *)
Definition locked_out : World :=
  mkWorld dev_env
    (mkOpts (mkRequest (Some "DELETE") QUndefined VUndefined) (mkResponse None)
       (λ _, inr VNull) "feed" None (inl (forbidden dev_env None)) (Some (inr tt)) None)
    [] sample_destroyProps.

(** A request with a verb the handler does not know. *)
Definition delete_request : World :=
  mkWorld dev_env (sample_opts (Some "DELETE") QUndefined VUndefined) [DeadlineElapsed]
    sample_destroyProps.

Section Plain.

Variable w : World.

(** Without a listener and a pending timer, events leave no trace. *)
Lemma deliver_unarmed s st :
  closeListener st = false → timerArmed st = false →
  trace (deliver w s st) = trace st
  ∧ closeListener (deliver w s st) = false
  ∧ timerArmed (deliver w s st) = false.
Proof.
  intros Hl Ha. destruct s as [v|e| |]; simpl.
  - by rewrite settle_handle_trace, settle_handle_listener, settle_handle_timer.
  - by rewrite settle_handle_trace, settle_handle_listener, settle_handle_timer.
  - by rewrite Hl.
  - by rewrite Ha.
Qed.

Lemma deliver_all_unarmed events st :
  closeListener st = false → timerArmed st = false →
  trace (foldl (λ st s, deliver w s st) st events) = trace st.
Proof.
  revert st. induction events as [|s rest IH]; intros st Hl Ha; [done|].
  simpl. destruct (deliver_unarmed s st Hl Ha) as (Ht & Hl' & Ha').
  by rewrite IH, Ht.
Qed.

Lemma invoked_teardown_effects : invoked (teardown_effects w) = [].
Proof. unfold teardown_effects. by destruct (teardown (opts w)) as [[|]|]. Qed.

Lemma invoked_app t1 t2 : invoked (t1 ++ t2) = invoked t1 ++ invoked t2.
Proof.
  induction t1 as [|e t1 IH]; [done|]. destruct e; simpl; by rewrite ?IH.
Qed.

(** X10: a query or a mutation calls the procedure once, with the
    deserialized input, the context and the endpoint, and is answered with
    the success envelope of the serialized output, under the status already
    set on the response or else 200, or with the error envelope of whatever
    the procedure or the serialization threw; teardown follows. *)
Theorem plain_dispatch_answer target raw inp c :
  createContext (opts w) = inr c →
  reads_input w target raw →
  deserializeInput w raw = inr inp →
  let args := mkInvokeArgs target inp c (endpoint (opts w)) in
  let json := plain_answer w (router_invoke (opts w) args) in
  run w = [ECreateContext; EInvoke args;
           EResStatusJson (envelope_statusCode json) json]
          ++ teardown_effects w.
Proof.
  intros Hctx Hreads Hinp args json. unfold json, plain_answer, args.
  unfold_handler. rewrite Hctx. simpl.
  destruct Hreads as [(Hm & -> & Hraw)|(Hm & -> & Hraw)]; rewrite Hm; simpl;
    rewrite Hraw, Hinp; simpl;
    destruct (router_invoke (opts w) _) as [err|output]; simpl;
    try destruct (serialize (the_transformer w) output) as [err|data]; simpl;
    unfold teardown_effects;
    destruct (teardown (opts w)) as [[err'|[]]|]; simpl;
    by rewrite deliver_all_unarmed.
Qed.

(** X11: a falsy raw input ([undefined], [null], [0], the empty string,
    [false]) is handed to the procedure as it is: [deserialize] is not
    applied to it, so it cannot fail on it. *)
Theorem falsy_input_is_not_deserialized target raw c :
  createContext (opts w) = inr c →
  reads_input w target raw →
  truthy raw = false →
  invoked (run w) = [mkInvokeArgs target raw c (endpoint (opts w))].
Proof.
  intros Hctx Hreads Hfalsy.
  assert (deserializeInput w raw = inr raw) as Hinp.
  { unfold deserializeInput. by rewrite Hfalsy. }
  rewrite (plain_dispatch_answer target raw raw c Hctx Hreads Hinp).
  simpl. by rewrite invoked_teardown_effects.
Qed.

(** X12: a truthy raw input that [deserialize] rejects is answered with the
    error envelope of that failure, and the procedure is not called. *)
Theorem rejected_input_is_not_dispatched target raw c err :
  createContext (opts w) = inr c →
  reads_input w target raw →
  deserializeInput w raw = inl err →
  let json := getErrorResponseEnvelope (process w) err in
  run w = [ECreateContext; EResStatusJson (error_statusCode json) (Failure json)]
          ++ teardown_effects w
  ∧ invoked (run w) = [].
Proof.
  intros Hctx Hreads Hinp json.
  assert (run w = [ECreateContext; EResStatusJson (error_statusCode json) (Failure json)]
                  ++ teardown_effects w) as Hrun.
  { unfold_handler. rewrite Hctx. simpl.
    destruct Hreads as [(Hm & -> & Hraw)|(Hm & -> & Hraw)]; rewrite Hm; simpl;
      rewrite Hraw, Hinp; simpl; unfold teardown_effects;
      destruct (teardown (opts w)) as [[err'|[]]|]; simpl;
      by rewrite deliver_all_unarmed. }
  split; [done|]. rewrite Hrun. simpl. by rewrite invoked_teardown_effects.
Qed.

(** X13: a verb other than [POST], [GET] and [PATCH], compared as written,
    is answered with status 400 and the message naming it; no procedure is
    called. *)
Theorem unexpected_method verb c :
  createContext (opts w) = inr c →
  method (req (opts w)) = Some verb →
  verb ≠ "POST" → verb ≠ "GET" → verb ≠ "PATCH" →
  let text := "Unexpected request method " +:+ verb in
  let json := mkErrorEnvelope 400
                (mkErrorBody text
                   (if production (process w) then None
                    else Some (captureStack (process w) text))) in
  run w = [ECreateContext; EResStatusJson 400 (Failure json)] ++ teardown_effects w
  ∧ invoked (run w) = [].
Proof.
  intros Hctx Hm Hpost%String.eqb_neq Hget%String.eqb_neq Hpatch%String.eqb_neq text json.
  assert (run w = [ECreateContext; EResStatusJson 400 (Failure json)]
                  ++ teardown_effects w) as Hrun.
  { unfold_handler. rewrite Hctx, Hm. simpl. rewrite Hpost, Hget, Hpatch. simpl.
    unfold teardown_effects, json, text, getErrorResponseEnvelope. simpl.
    destruct (teardown (opts w)) as [[err'|[]]|]; simpl;
      rewrite deliver_all_unarmed by done; simpl;
      by destruct (production (process w)). }
  split; [done|]. rewrite Hrun. simpl. by rewrite invoked_teardown_effects.
Qed.

(** X14: the context is created before the verb is looked at: when the
    context factory throws, the answer is the error envelope of its failure,
    whatever the verb, and no procedure is called. *)
Theorem context_failure err :
  createContext (opts w) = inl err →
  let json := getErrorResponseEnvelope (process w) err in
  run w = [ECreateContext; EResStatusJson (error_statusCode json) (Failure json)]
          ++ teardown_effects w
  ∧ invoked (run w) = [].
Proof.
  intros Hctx json.
  assert (run w = [ECreateContext; EResStatusJson (error_statusCode json) (Failure json)]
                  ++ teardown_effects w) as Hrun.
  { unfold_handler. rewrite Hctx. simpl. unfold teardown_effects.
    destruct (teardown (opts w)) as [[err'|[]]|]; simpl;
      by rewrite deliver_all_unarmed. }
  split; [done|]. rewrite Hrun. simpl. by rewrite invoked_teardown_effects.
Qed.

(** X15: a request without a method is handled as a [GET]. *)
Theorem missing_method_is_GET :
  method (req (opts w)) = None →
  run w = run (with_method (Some "GET") w).
Proof.
  intros Hm. unfold_handler. unfold with_method. simpl. by rewrite Hm.
Qed.

End Plain.

Lemma plain_dispatch_answer_witness :
  run plain_read
  = [ECreateContext;
     EInvoke (mkInvokeArgs Target.queries VUndefined VNull "feed");
     EResStatusJson 200 (Success (mkSuccessEnvelope 200 (VObject [("x", VNum 1)])));
     ETeardown].
Proof.
  exact (plain_dispatch_answer plain_read Target.queries VUndefined VUndefined VNull
           eq_refl (or_intror (conj eq_refl (conj eq_refl eq_refl))) eq_refl).
Defined.

Lemma falsy_input_is_not_deserialized_witness :
  invoked (run (strict_mutation 0))
  = [mkInvokeArgs Target.mutations (VNum 0) VNull "counter/set"].
Proof.
  exact (falsy_input_is_not_deserialized (strict_mutation 0) Target.mutations (VNum 0)
           VNull eq_refl (or_introl (conj eq_refl (conj eq_refl eq_refl))) eq_refl).
Defined.

Lemma rejected_input_is_not_dispatched_witness :
  invoked (run (strict_mutation 1)) = []
  ∧ map fst (emitted (run (strict_mutation 1))) = [500].
Proof.
  pose proof (rejected_input_is_not_dispatched (strict_mutation 1) Target.mutations
                (VNum 1) VNull _ eq_refl
                (or_introl (conj eq_refl (conj eq_refl eq_refl))) eq_refl) as [Hrun Hnone].
  split; [exact Hnone|]. rewrite Hrun. reflexivity.
Defined.

Lemma unexpected_method_witness :
  map fst (emitted (run delete_request)) = [400]
  ∧ invoked (run delete_request) = [].
Proof.
  pose proof (unexpected_method delete_request "DELETE" VNull eq_refl eq_refl
                ltac:(discriminate) ltac:(discriminate) ltac:(discriminate))
    as [Hrun Hnone].
  split; [|exact Hnone]. rewrite Hrun. reflexivity.
Defined.

Lemma context_failure_witness :
  map fst (emitted (run locked_out)) = [403] ∧ invoked (run locked_out) = [].
Proof.
  pose proof (context_failure locked_out (forbidden dev_env None) eq_refl)
    as [Hrun Hnone].
  split; [|exact Hnone]. rewrite Hrun. reflexivity.
Defined.

Lemma missing_method_is_GET_witness :
  run plain_read = run (with_method (Some "GET") plain_read).
Proof. exact (missing_method_is_GET plain_read eq_refl). Defined.

(** ** Subscriptions *)

(** The request is a [PATCH] whose context is [c] and whose deserialized
    input is [inp]. *)
Definition subscribes (w : World) (inp c : JsVal) : Prop :=
  method (req (opts w)) = Some "PATCH"
  ∧ createContext (opts w) = inr c
  ∧ ∃ raw, get_input (process w) (body (req (opts w))) = inr raw
           ∧ deserializeInput w raw = inr inp.

(** Whether the deadline is among the given events. *)
Fixpoint deadline_among (events : list Signal) : bool :=
  match events with
  | [] => false
  | DeadlineElapsed :: _ => true
  | _ :: rest => deadline_among rest
  end.

(** What the [catch] around the wait rethrows. *)
Definition rethrown (w : World) (err : Thrown) : Thrown :=
  match err with
  | SubscriptionDestroyError timeout _ =>
      new_HTTPError (process w) 408 (exceeded_message w (the_timeout w))
  | _ => err
  end.

(** A subscription to a path the router does not know. *)
Definition unknown_subscription : World :=
  mkWorld dev_env
    (mkOpts (mkRequest (Some "PATCH") QUndefined (VObject [])) (mkResponse None)
       (λ args, inl (RouteNotFoundError "No such route" "at invoke")) "nowhere"
       None (inr VNull) None None)
    [ClientClose; DeadlineElapsed] sample_destroyProps.

(** The handle fails on its own; client and deadline follow. *)
Definition failing_handle : World :=
  subscription_world
    [HandleError (OtherThrown (mkProps VUndefined (VStr "feed broke") VUndefined));
     ClientClose; DeadlineElapsed].

(** The handle rejects its wait by itself with a termination of reason
    [timeout]. *)
Definition self_terminating_handle : World :=
  subscription_world
    [HandleError (SubscriptionDestroyError timeout (sample_destroyProps timeout))].

(** The handle produces its output; the client leaves afterwards. *)
Definition output_then_close : World :=
  subscription_world [HandleOutput (VNum 7); ClientClose].

Section Subscriptions.

Variable w : World.

(** After the handler has let go of the listener, only the deadline can
    still do something, and only once. *)
Lemma drain_destroys events st :
  closeListener st = false →
  destroys (trace (foldl (λ st s, deliver w s st) st events))
  = destroys (trace st)
    ++ (if timerArmed st && deadline_among events then [timeout] else []).
Proof.
  revert st. induction events as [|s rest IH]; intros st Hl.
  - simpl. by rewrite andb_false_r, app_nil_r.
  - destruct s as [v|e| |]; simpl.
    + rewrite IH by by rewrite settle_handle_listener.
      by rewrite settle_handle_trace, settle_handle_timer.
    + rewrite IH by by rewrite settle_handle_listener.
      by rewrite settle_handle_trace, settle_handle_timer.
    + rewrite Hl. by apply IH.
    + destruct (timerArmed st) eqn:Ha.
      * rewrite IH by (unfold sub_destroy; by rewrite settle_handle_listener).
        unfold sub_destroy. rewrite settle_handle_timer, settle_handle_trace. simpl.
        by rewrite destroys_app, app_nil_r.
      * rewrite IH by done. by rewrite Ha.
Qed.

(** X16: when [router.invoke] throws for a subscription, no listener is
    added and no timer set; the failure is answered like any other. *)
Theorem subscription_not_found inp c err :
  subscribes w inp c →
  router_invoke (opts w) (subscription_args w inp c) = inl err →
  let json := getErrorResponseEnvelope (process w) err in
  run w = [ECreateContext; EInvoke (subscription_args w inp c);
           EResStatusJson (error_statusCode json) (Failure json)]
          ++ teardown_effects w.
Proof.
  intros (Hm & Hctx & raw & Hraw & Hinp) Hinvoke json.
  unfold subscription_args in *. unfold_handler.
  rewrite Hctx, Hm. simpl. rewrite Hraw, Hinp. simpl. rewrite Hinvoke. simpl.
  unfold teardown_effects.
  destruct (teardown (opts w)) as [[err'|[]]|]; simpl;
    by rewrite deliver_all_unarmed.
Qed.

(** X17: when the handle fails on its own, the listener is removed and the
    timer cleared, the handle is not asked to terminate, and the answer is
    the error envelope of the failure; a failure that is a termination with
    reason [timeout] is answered as the 408 of the deadline, its message
    naming the timeout as the template literal prints it. *)
Theorem handle_failure inp c h err rest :
  subscribes w inp c →
  router_invoke (opts w) (subscription_args w inp c) = inr h →
  signals w = HandleError err :: rest →
  let json := getErrorResponseEnvelope (process w) (rethrown w err) in
  run w = [ECreateContext; EInvoke (subscription_args w inp c);
           EResOnceClose; ESetTimeout (the_timeout w);
           EResOffClose; EClearTimeout;
           EResStatusJson (error_statusCode json) (Failure json)]
          ++ teardown_effects w
  ∧ destroys (run w) = []
  ∧ ((∀ p, err ≠ SubscriptionDestroyError timeout p) →
     json = getErrorResponseEnvelope (process w) err)
  ∧ (∀ p, err = SubscriptionDestroyError timeout p →
          error_statusCode json = 408
          ∧ message (error json)
            = "Subscription exceeded " +:+ Number_toString (process w) (the_timeout w)
              +:+ "ms - please reconnect."
          ∧ ((the_timeout w < 2 ^ 53)%N →
             message (error json)
             = "Subscription exceeded " +:+ pretty (the_timeout w)
               +:+ "ms - please reconnect.")).
Proof.
  intros (Hm & Hctx & raw & Hraw & Hinp) Hinvoke Hsignals json.
  assert ((∀ p, err ≠ SubscriptionDestroyError timeout p) →
          json = getErrorResponseEnvelope (process w) err) as Hother.
  { intros Hno. unfold json, rethrown.
    destruct err as [m s|m s|code m s|[] p|p]; try done. by destruct (Hno p). }
  assert (∀ p, err = SubscriptionDestroyError timeout p →
          error_statusCode json = 408
          ∧ message (error json)
            = "Subscription exceeded " +:+ Number_toString (process w) (the_timeout w)
              +:+ "ms - please reconnect."
          ∧ ((the_timeout w < 2 ^ 53)%N →
             message (error json)
             = "Subscription exceeded " +:+ pretty (the_timeout w)
               +:+ "ms - please reconnect.")) as Htimeout.
  { intros p ->. unfold json, rethrown, getErrorResponseEnvelope, exceeded_message.
    simpl. repeat split. intros Hlt%N.ltb_lt. unfold Number_toString. by rewrite Hlt. }
  assert (run w = [ECreateContext; EInvoke (subscription_args w inp c);
           EResOnceClose; ESetTimeout (the_timeout w);
           EResOffClose; EClearTimeout;
           EResStatusJson (error_statusCode json) (Failure json)]
          ++ teardown_effects w) as Hrun.
  { unfold subscription_args in *. unfold_handler.
    rewrite Hctx, Hm. simpl. rewrite Hraw, Hinp. simpl. rewrite Hinvoke, Hsignals.
    simpl. rewrite ?settle_done by (cbv; discriminate). simpl.
    unfold teardown_effects, json, rethrown.
    destruct err as [m s|m s|code m s|[] p|p]; simpl;
      destruct (teardown (opts w)) as [[err'|[]]|]; simpl;
      by rewrite ?deliver_all_unarmed. }
  split; [done|]. rewrite Hrun, destroys_app. simpl.
  unfold teardown_effects. by destruct (teardown (opts w)) as [[err'|[]]|].
Qed.

(** X18: when the handle produces its output first, the answer is that of a
    query with this output; the disconnect listener is gone by then, so a
    later disconnect does nothing, while the timer is still pending: the
    handle is asked to terminate, with reason [timeout], exactly if the
    deadline is among the later events. *)
Theorem subscription_output inp c h v rest :
  subscribes w inp c →
  router_invoke (opts w) (subscription_args w inp c) = inr h →
  signals w = HandleOutput v :: rest →
  let json := plain_answer w (inr v) in
  trace (final (requestHandler w (initial w)))
  = [ECreateContext; EInvoke (subscription_args w inp c);
     EResOnceClose; ESetTimeout (the_timeout w); EResOffClose;
     EResStatusJson (envelope_statusCode json) json]
    ++ teardown_effects w
  ∧ emitted (run w) = [(envelope_statusCode json, json)]
  ∧ destroys (run w) = if deadline_among rest then [timeout] else [].
Proof.
  intros (Hm & Hctx & raw & Hraw & Hinp) Hinvoke Hsignals json.
  assert (∃ st, final (requestHandler w (initial w)) = st
                ∧ trace st = [ECreateContext; EInvoke (subscription_args w inp c);
                     EResOnceClose; ESetTimeout (the_timeout w); EResOffClose;
                     EResStatusJson (envelope_statusCode json) json]
                    ++ teardown_effects w
                ∧ closeListener st = false ∧ timerArmed st = true
                ∧ pending st = rest) as (st & Hst & Htrace & Hl & Ha & Hp).
  { eexists. split; [reflexivity|].
    unfold subscription_args in *. unfold_handler.
    rewrite Hctx, Hm. simpl. rewrite Hraw, Hinp. simpl. rewrite Hinvoke, Hsignals.
    simpl. rewrite ?settle_done by (cbv; discriminate). simpl.
    unfold teardown_effects, json, plain_answer.
    destruct (serialize (the_transformer w) v) as [err|data]; simpl;
      by destruct (teardown (opts w)) as [[err'|[]]|]. }
  split; [by rewrite Hst|]. split.
  - rewrite emitted_run, Hst, Htrace, emitted_app. simpl.
    by rewrite emitted_teardown_effects.
  - unfold run, drain. rewrite Hst. simpl.
    rewrite drain_destroys, Ha, Hp, Htrace, destroys_app by done. simpl.
    unfold teardown_effects. by destruct (teardown (opts w)) as [[err'|[]]|].
Qed.

End Subscriptions.

Lemma subscription_not_found_witness :
  run unknown_subscription
  = [ECreateContext;
     EInvoke (mkInvokeArgs Target.subscriptions VUndefined VNull "nowhere");
     EResStatusJson 404
       (Failure (mkErrorEnvelope 404
          (mkErrorBody "No such route" (Some "Error: No such route at requestHandler"))))].
Proof.
  exact (subscription_not_found unknown_subscription VUndefined VNull
           (RouteNotFoundError "No such route" "at invoke")
           (conj eq_refl (conj eq_refl (ex_intro _ VUndefined (conj eq_refl eq_refl))))
           eq_refl).
Defined.

Lemma handle_failure_witness :
  destroys (run failing_handle) = []
  ∧ map fst (emitted (run failing_handle)) = [500]
  ∧ message (error (getErrorResponseEnvelope dev_env
                      (rethrown self_terminating_handle
                         (SubscriptionDestroyError timeout (sample_destroyProps timeout)))))
    = "Subscription exceeded 50ms - please reconnect.".
Proof.
  pose proof (handle_failure failing_handle VUndefined VNull (VObject [("x", VNum 1)])
                _ _
                (conj eq_refl (conj eq_refl (ex_intro _ VUndefined (conj eq_refl eq_refl))))
                eq_refl eq_refl) as (Hrun & Hnone & _).
  pose proof (handle_failure self_terminating_handle VUndefined VNull
                (VObject [("x", VNum 1)]) _ _
                (conj eq_refl (conj eq_refl (ex_intro _ VUndefined (conj eq_refl eq_refl))))
                eq_refl eq_refl) as (_ & _ & _ & Htimeout).
  split; [exact Hnone|]. split; [rewrite Hrun; reflexivity|].
  destruct (Htimeout _ eq_refl) as (_ & _ & Hdecimal).
  exact (Hdecimal eq_refl).
Defined.

Lemma subscription_output_witness :
  destroys (run output_then_close) = []
  ∧ emitted (run output_then_close)
    = [(200, Success (mkSuccessEnvelope 200 (VNum 7)))].
Proof.
  pose proof (subscription_output output_then_close VUndefined VNull
                (VObject [("x", VNum 1)]) (VNum 7) [ClientClose]
                (conj eq_refl (conj eq_refl (ex_intro _ VUndefined (conj eq_refl eq_refl))))
                eq_refl eq_refl) as (_ & Hemit & Hnone).
  exact (conj Hnone Hemit).
Defined.

(** ** What holds for every request *)

(** Two states agree on what is registered and on the termination requests
    made so far. *)
Definition same_resources (st st' : State) : Prop :=
  closeListener st' = closeListener st
  ∧ timerArmed st' = timerArmed st
  ∧ pending st' = pending st
  ∧ destroys (trace st') = destroys (trace st).

(** The handler has let go of the listener and has asked the handle to
    terminate either not at all, or once, the timer then being spent or
    cleared. *)
Definition released (before : list Reason) (st : State) : Prop :=
  closeListener st = false
  ∧ (destroys (trace st) = before
     ∨ (timerArmed st = false
        ∧ ∃ reason, (reason = closed ∨ reason = timeout)
                    ∧ destroys (trace st) = before ++ [reason])).

Section Resources.

Variable w : World.

Lemma await_released st :
  closeListener st = false → timerArmed st = false → handle st = None →
  released (destroys (trace st)) (final (await_subscription w st)).
Proof.
  destruct st as [tr cl ta hd events]. simpl. intros -> -> ->.
  unfold released, await_subscription, onceOutputAndStop, res_once_close,
    res_off_close, setTimeout, clearTimeout, try_catch, throw, mbind, mret,
    M_bind, M_ret.
  destruct events as [|[v|e| |] rest]; simpl;
    rewrite ?settle_done by (cbv; discriminate); simpl.
  - split; [done|]. right. split; [done|]. exists timeout.
    split; [by right|]. rewrite !destroys_app. simpl. by rewrite !app_nil_r.
  - split; [done|]. left. rewrite !destroys_app. simpl. by rewrite !app_nil_r.
  - destruct e as [m s|m s|code m s|[] p|p]; simpl; (split; [done|]); left;
      rewrite !destroys_app; simpl; by rewrite !app_nil_r.
  - split; [done|]. right. split; [done|]. exists closed.
    split; [by left|]. rewrite !destroys_app. simpl. by rewrite !app_nil_r.
  - split; [done|]. right. split; [done|]. exists timeout.
    split; [by right|]. rewrite !destroys_app. simpl. by rewrite !app_nil_r.
Qed.

Lemma dispatch_released : released [] (final (dispatch w (initial w))).
Proof.
  unfold dispatch, invoke, lift, log, throw, initial, mbind, mret, M_bind, M_ret.
  destruct (createContext (opts w)) as [err|c]; simpl; [by split; [|left]|].
  destruct (String.eqb _ "POST"); [|destruct (String.eqb _ "GET");
    [|destruct (String.eqb _ "PATCH")]].
  - destruct (get_input _ _) as [err|raw]; simpl; [by split; [|left]|].
    destruct (deserializeInput w raw) as [err|inp]; simpl; [by split; [|left]|].
    destruct (router_invoke _ _) as [err|output]; simpl; by split; [|left].
  - destruct (getQueryInput _ _) as [err|raw]; simpl; [by split; [|left]|].
    destruct (deserializeInput w raw) as [err|inp]; simpl; [by split; [|left]|].
    destruct (router_invoke _ _) as [err|output]; simpl; by split; [|left].
  - destruct (get_input _ _) as [err|raw]; simpl; [by split; [|left]|].
    destruct (deserializeInput w raw) as [err|inp]; simpl; [by split; [|left]|].
    destruct (router_invoke _ _) as [err|h]; simpl; [by split; [|left]|].
    match goal with
    | |- context [await_subscription w ?st] =>
        exact (await_released st eq_refl eq_refl eq_refl)
    end.
  - simpl. by split; [|left].
Qed.

Lemma respond_same_resources st :
  same_resources (final (dispatch w st)) (final (respond w st)).
Proof.
  unfold same_resources, respond, try_catch, res_status_json, lift, log, throw,
    mbind, mret, M_bind, M_ret.
  destruct (dispatch w st) as [output st1|err st1|st1]; simpl; [| |done].
  - destruct (serialize (the_transformer w) output) as [err|data]; simpl;
      rewrite destroys_app; simpl; by rewrite app_nil_r.
  - rewrite destroys_app. simpl. by rewrite app_nil_r.
Qed.

Lemma run_teardown_same_resources st :
  same_resources st (final (run_teardown w st)).
Proof.
  unfold same_resources, run_teardown, try_catch, lift, log, throw,
    mbind, mret, M_bind, M_ret.
  destruct (teardown (opts w)) as [[err|[]]|]; simpl;
    rewrite ?destroys_app; simpl; by rewrite ?app_nil_r.
Qed.

Lemma requestHandler_released :
  released [] (final (requestHandler w (initial w))).
Proof.
  pose proof dispatch_released as (Hl & Hd).
  destruct (respond_same_resources (initial w)) as (Hl1 & Ha1 & _ & Hd1).
  destruct (respond_spec w (initial w)) as (pre & code & json & st1 & Hr & _).
  rewrite Hr in Hl1, Ha1, Hd1. simpl in *.
  destruct (run_teardown_same_resources st1) as (Hl2 & Ha2 & _ & Hd2).
  unfold requestHandler, mbind, M_bind. rewrite Hr.
  unfold released. rewrite Hl2, Ha2, Hd2, Hl1, Ha1, Hd1. by split.
Qed.

(** X19: in the course of one request, the late events included, the
    handle is asked to terminate at most once, with reason [closed] or
    [timeout]. *)
Theorem destroy_at_most_once :
  destroys (run w) = [] ∨ destroys (run w) = [closed] ∨ destroys (run w) = [timeout].
Proof.
  destruct requestHandler_released as (Hl & [Hd|(Ha & reason & Hreason & Hd)]);
    unfold run, drain; simpl; rewrite drain_destroys by done.
  - rewrite Hd. simpl.
    destruct (timerArmed _ && deadline_among _); [by right; right|by left].
  - rewrite Hd, Ha. simpl. destruct Hreason as [-> | ->]; [by right; left|by right; right].
Qed.

(** X20: whatever the request and whatever happens to it, [onClose] is no
    longer registered on the response when the handler returns; and if the
    timer is still pending then, the handle has not been asked to
    terminate. *)
Theorem close_listener_released :
  closeListener (final (requestHandler w (initial w))) = false
  ∧ (timerArmed (final (requestHandler w (initial w))) = true →
     destroys (trace (final (requestHandler w (initial w)))) = []).
Proof.
  destruct requestHandler_released as (Hl & [Hd|(Ha & reason & Hreason & Hd)]).
  - by split.
  - split; [done|]. rewrite Ha. discriminate.
Qed.

End Resources.

Lemma close_listener_released_witness :
  closeListener (final (requestHandler output_then_deadline (initial output_then_deadline)))
  = false
  ∧ destroys (trace (final (requestHandler output_then_deadline
                              (initial output_then_deadline)))) = [].
Proof.
  pose proof (close_listener_released output_then_deadline) as [Hoff Hnone].
  exact (conj Hoff (Hnone eq_refl)).
Defined.

Section Answers.

Variable w : World.

(** The procedure call made by [dispatch], if any, and what it left in the
    trace. *)
Lemma await_invoked st :
  closeListener st = false → timerArmed st = false → handle st = None →
  invoked (trace (final (await_subscription w st))) = invoked (trace st).
Proof.
  destruct st as [tr cl ta hd events]. simpl. intros -> -> ->.
  unfold await_subscription, onceOutputAndStop, res_once_close,
    res_off_close, setTimeout, clearTimeout, try_catch, throw, mbind, mret,
    M_bind, M_ret.
  destruct events as [|[v|e| |] rest]; simpl;
    rewrite ?settle_done by (cbv; discriminate); simpl;
    try (destruct e as [m s|m s|code m s|[] p|p]; simpl);
    rewrite !invoked_app; simpl; by rewrite !app_nil_r.
Qed.

Lemma dispatch_invoked :
  (invoked (trace (final (dispatch w (initial w)))) = []
   ∨ ∃ args, invoked (trace (final (dispatch w (initial w)))) = [args])
  ∧ ∀ output st, dispatch w (initial w) = Returns output st →
                 invoked (trace st) ≠ [].
Proof.
  unfold dispatch, invoke, lift, log, throw, initial, mbind, mret, M_bind, M_ret.
  destruct (createContext (opts w)) as [err|c]; simpl; [by split; [left|]|].
  destruct (String.eqb _ "POST"); [|destruct (String.eqb _ "GET");
    [|destruct (String.eqb _ "PATCH")]].
  - destruct (get_input _ _) as [err|raw]; simpl; [by split; [left|]|].
    destruct (deserializeInput w raw) as [err|inp]; simpl; [by split; [left|]|].
    destruct (router_invoke _ _) as [err|output]; simpl.
    + split; [right; by eexists|done].
    + split; [right; by eexists|]. by intros ?? [= _ <-].
  - destruct (getQueryInput _ _) as [err|raw]; simpl; [by split; [left|]|].
    destruct (deserializeInput w raw) as [err|inp]; simpl; [by split; [left|]|].
    destruct (router_invoke _ _) as [err|output]; simpl.
    + split; [right; by eexists|done].
    + split; [right; by eexists|]. by intros ?? [= _ <-].
  - destruct (get_input _ _) as [err|raw]; simpl; [by split; [left|]|].
    destruct (deserializeInput w raw) as [err|inp]; simpl; [by split; [left|]|].
    destruct (router_invoke _ _) as [err|h]; simpl.
    + split; [right; by eexists|done].
    + match goal with
      | |- context [await_subscription w ?st] =>
          pose proof (await_invoked st eq_refl eq_refl eq_refl) as Hinv
      end.
      simpl in Hinv. split; [right; by eexists|].
      intros output st Hret. rewrite Hret in Hinv. simpl in Hinv. by rewrite Hinv.
  - simpl. by split; [left|].
Qed.

(** What the outer [try]/[catch] writes: a success envelope when the
    dispatch returned and its output was serialized, otherwise the error
    envelope of the failure. *)
Lemma respond_answer :
  ∃ code json st',
    respond w (initial w) = Returns tt st'
    ∧ trace st' = trace (final (dispatch w (initial w))) ++ [EResStatusJson code json]
    ∧ match json with
      | Success _ => ∃ output st, dispatch w (initial w) = Returns output st
      | Failure j => ∃ err, j = getErrorResponseEnvelope (process w) err
      end.
Proof.
  destruct (modest_dispatch w (initial w)) as (pre & Ht & Hs & Hn).
  unfold respond, try_catch, mbind, M_bind, res_status_json, log, lift, throw,
    mret, M_ret.
  destruct (dispatch w (initial w)) as [output st1|err st1|st1]; simpl in *; [| |done].
  - destruct (serialize (the_transformer w) output) as [err|data]; simpl.
    + eexists _, (Failure _), _. repeat split. by eexists.
    + eexists _, (Success _), _. repeat split. by eexists _, _.
  - eexists _, (Failure _), _. repeat split. by eexists.
Qed.

Lemma run_answer :
  ∃ code json late,
    run w = trace (final (dispatch w (initial w)))
            ++ [EResStatusJson code json] ++ teardown_effects w ++ late
    ∧ silent late ∧ invoked late = []
    ∧ emitted (run w) = [(code, json)]
    ∧ match json with
      | Success _ => ∃ output st, dispatch w (initial w) = Returns output st
      | Failure j => ∃ err, j = getErrorResponseEnvelope (process w) err
      end.
Proof.
  destruct respond_answer as (code & json & st1 & Hr & Ht1 & Hjson).
  destruct (run_teardown_spec w st1) as (st2 & Htd & Ht2).
  destruct (modest_dispatch w (initial w)) as (pre & Hpre & Hs & _).
  assert (∀ events st, ∃ late,
            trace (foldl (λ st s, deliver w s st) st events) = trace st ++ late
            ∧ silent late ∧ invoked late = []) as Hlate.
  { induction events as [|s rest IH]; intros st.
    - exists []. simpl. rewrite app_nil_r. by repeat split.
    - simpl. destruct (IH (deliver w s st)) as (l2 & Hl2 & Hs2 & Hi2).
      assert (∃ l1, trace (deliver w s st) = trace st ++ l1 ∧ silent l1
                    ∧ invoked l1 = []) as (l1 & Hl1 & Hs1 & Hi1).
      { destruct s as [v|e| |]; simpl.
        - exists []. rewrite settle_handle_trace, app_nil_r. by repeat split.
        - exists []. rewrite settle_handle_trace, app_nil_r. by repeat split.
        - destruct (closeListener st).
          + exists [ESubDestroy closed]. unfold onClose, sub_destroy.
            by rewrite settle_handle_trace.
          + exists []. rewrite app_nil_r. by repeat split.
        - destruct (timerArmed st).
          + exists [ESubDestroy timeout]. unfold sub_destroy.
            by rewrite settle_handle_trace.
          + exists []. rewrite app_nil_r. by repeat split. }
      exists (l1 ++ l2). rewrite Hl2, Hl1, (assoc_L (++)). split; [done|].
      split; [by apply silent_app|]. by rewrite invoked_app, Hi1, Hi2. }
  destruct (Hlate (pending st2) st2) as (late & Hl & Hsl & Hil).
  exists code, json, late.
  assert (run w = trace (final (dispatch w (initial w)))
                  ++ [EResStatusJson code json] ++ teardown_effects w ++ late) as Hrun.
  { unfold run, drain, requestHandler, mbind, M_bind. rewrite Hr, Htd. simpl.
    rewrite Hl, Ht2, Ht1. by rewrite <- !(assoc_L (++)). }
  repeat split; try done; try apply Hsl.
  rewrite Hrun, Hpre. simpl. rewrite !emitted_app. simpl.
  rewrite emitted_app, emitted_teardown_effects.
  destruct Hs as [-> _], Hsl as [-> _]. done.
Qed.

(** X21: per request the procedure is called at most once, and a success
    envelope is only ever written after it was called: the call lies in the
    trace before the envelope, and none follows it. *)
Theorem invoked_at_most_once :
  (invoked (run w) = [] ∨ ∃ args, invoked (run w) = [args])
  ∧ ∀ code json,
      emitted (run w) = [(code, Success json)] →
      ∃ before args after,
        run w = before ++ EResStatusJson code (Success json) :: after
        ∧ invoked before = [args]
        ∧ emitted before = []
        ∧ invoked after = [].
Proof.
  destruct run_answer as (code & json & late & Hrun & _ & Hil & Hemit & Hjson).
  destruct dispatch_invoked as [Hcount Hcalled].
  destruct (modest_dispatch w (initial w)) as (pre & Hpre & [Hquiet _] & _).
  assert (invoked (run w) = invoked (trace (final (dispatch w (initial w))))) as Hinv.
  { rewrite Hrun, !invoked_app, invoked_teardown_effects, Hil. simpl.
    by rewrite app_nil_r. }
  rewrite Hinv. split; [done|].
  intros code' json' Hsuccess. rewrite Hemit in Hsuccess.
  injection Hsuccess as -> ->. destruct Hjson as (output & st & Hret).
  assert (∃ args, invoked (trace (final (dispatch w (initial w)))) = [args])
    as [args Hargs].
  { destruct Hcount as [Hnone|Hone]; [|done].
    destruct (Hcalled output st Hret). rewrite Hret in Hnone. done. }
  exists (trace (final (dispatch w (initial w)))), args, (teardown_effects w ++ late).
  split; [exact Hrun|]. split; [done|]. split.
  - rewrite Hpre. simpl. done.
  - by rewrite invoked_app, invoked_teardown_effects, Hil.
Qed.

(** X22: under production configuration no response carries a stack: the
    one envelope written is a success envelope or an error envelope without
    stack. *)
Theorem production_response_has_no_stack :
  NODE_ENV (process w) = Some "production" →
  ∃ code json,
    emitted (run w) = [(code, json)]
    ∧ match json with
      | Success _ => True
      | Failure j => stack (error j) = None
      end.
Proof.
  intros Hprod%production_true.
  destruct run_answer as (code & json & late & _ & _ & _ & Hemit & Hjson).
  exists code, json. split; [done|].
  destruct json as [j|j]; [done|]. destruct Hjson as [err ->].
  unfold getErrorResponseEnvelope. by rewrite Hprod.
Qed.

End Answers.

(** The handle never produces anything, under production configuration. *)
Definition never_outputs_in_production : World :=
  mkWorld prod_env (sample_opts (Some "PATCH") QUndefined (VObject [])) []
    sample_destroyProps.

Lemma invoked_at_most_once_witness :
  ∃ before args after,
    run plain_read
    = before ++ EResStatusJson 200
                  (Success (mkSuccessEnvelope 200 (VObject [("x", VNum 1)]))) :: after
    ∧ invoked before = [args]
    ∧ emitted before = []
    ∧ invoked after = [].
Proof.
  exact (proj2 (invoked_at_most_once plain_read) 200
           (mkSuccessEnvelope 200 (VObject [("x", VNum 1)])) eq_refl).
Defined.

Lemma production_response_has_no_stack_witness :
  ∃ code json,
    emitted (run never_outputs_in_production) = [(code, json)]
    ∧ match json with
      | Success _ => True
      | Failure j => stack (error j) = None
      end.
Proof. exact (production_response_has_no_stack never_outputs_in_production eq_refl). Defined.

End HttpMore.
